(** * accelerator-core: the communication component (src/communication.js)

    A shallow embedding of the publish/subscribe glue of the call widget,
    together with the small part of the JavaScript runtime it relies on:
    promises with their reaction lists, the microtask queue, and the
    callbacks the SDK keeps until it answers.

    Conventions.
    - The module-level variables of communication.js, the store of the
      [state] module, the trace of the calls made to the collaborators
      (logging, the event bus, OT, the session) and the promise runtime are
      the fields of one [World]; every function of the module is a
      computation in the state-and-exception monad [M] over it.
    - A handle the SDK hands out (publisher, subscriber) carries a numeric
      tag; a stream id is a string.
    - JavaScript objects used as dictionaries are [gmap]s; where the code
      enumerates one ([Object.keys], [Object.values]) the model enumerates
      [map_to_list], whose order is the map's own.  No statement below
      depends on that order. *)

From Stdlib Require Import ZArith Ascii String.
From stdpp Require Import base gmap strings list.

Local Open Scope string_scope.
Local Open Scope list_scope.

(** * Data model *)

(** ** Streams, handles and errors *)

Inductive VideoType := camera | screen.

Definition typeName (t : VideoType) : string :=
  match t with camera => "camera" | screen => "screen" end.

(** [stream.connection.data]: absent (or empty), a text [JSON.parse]
    accepts, or a text on which [JSON.parse] throws. *)
Inductive ConnectionData :=
| NoData
| JsonData (text : string)
| BadData (text : string).

Record Stream := {
  stream_id : string;
  videoType : VideoType;
  connection_data : ConnectionData
}.

Record Publisher := { publisher_id : nat }.

Record Subscriber := { subscriber_id : nat; subscriber_stream : Stream }.

(** An error object: [error.code] (a number, when there is one) and
    [error.message]. *)
Record Error := { code : option Z; message : string }.

Definition Handle := nat.

(** UI properties handed to the SDK. *)
Inductive Props :=
| defaultCallProperties
| defaultWindowProperties   (* defaultCallProperties with videoSource 'window' *)
| customProperties (tag : nat).

(** What [streamContainers(who, type, data)] designates, seen through
    [dom.element] or [dom.query]. *)
Record Container := {
  container_fn : Handle;
  container_for : string;
  container_type : VideoType;
  container_data : option string
}.

(** ** The store of the state module *)

Record Registry (A : Type) := {
  reg_camera : gmap nat A;
  reg_screen : gmap nat A
}.
Arguments reg_camera {A} _.
Arguments reg_screen {A} _.

Record Store := {
  streams : gmap string Stream;
  streamMap : gmap string nat;
  publishers : Registry Publisher;
  subscribers : Registry Subscriber
}.

Record PubSub := {
  ps_publishers : Registry Publisher;
  ps_subscribers : Registry Subscriber
}.

(** ** JavaScript values that travel through promises and events *)

#[warnings="-register-all"]
Inductive Val :=
| VUndefined
| VString (s : string)
| VError (e : Error)
| VPublisher (p : Publisher)
| VSubscriber (s : Subscriber)
| VPubSub (d : PubSub)
| VSubscribed (s : Subscriber) (all : Store)   (* { subscriber, ...state.all() } *)
| VArray (l : list Val).

Definition TypeError (msg : string) : Val :=
  VError {| code := None; message := msg |}.

(** ** Calls made to the collaborators *)

Inductive LogAction := la_startCall | la_endCall | la_subscribe | la_unsubscribe.
Inductive LogVariation := attempt | success | fail.
Inductive Listener := l_onStreamCreated | l_onStreamDestroyed.

Inductive Event :=
| Log (a : LogAction) (v : LogVariation)
| LogError (msg : string)
| LogMessage (msg : string) (reason : Val)
| TriggerEvent (event : string) (data : Val)
| AccPackOn (event : string) (l : Listener)
| OTInitPublisher (c : Container) (props : option Props) (p : Publisher)
| SessionPublish (p : Publisher)
| SessionUnpublish (p : Publisher)
| SessionSubscribe (s : Stream) (c : Container) (options : option Props)
                   (sub : Subscriber)
| SessionUnsubscribe (sub : Subscriber)
| PublisherEnable (p : Publisher) (method : string) (enable : bool)
| SubscriberEnable (s : Subscriber) (method : string) (enable : bool).

(** ** Promises *)

(** The functions handed to [then] and [catch], and the two functions
    [Promise.all] attaches to each element, each with the promises whose
    [resolve]/[reject] it closes over. *)
Inductive Kont :=
| KIdentity                           (* no fulfilment handler: pass on *)
| KThrower                            (* no rejection handler: rethrow *)
| KPublishThen (pPublish : nat)       (* publish: .then((publisher) => ...) *)
| KPublishCatch (pPublish : nat)      (* publish: .catch((error) => ...) *)
| KStartCallThen (pStart : nat)       (* startCall: publish().then(() => ...) *)
| KAllThen (pStart : nat)             (* startCall: Promise.all(...).then(() => ...) *)
| KAllCatch                           (* startCall: .catch(reason => ...) *)
| KAllResolveElement (pAll index : nat)
| KAllReject (pAll : nat).

(** The callbacks handed to the SDK. *)
Inductive Callback :=
| CbInitPublisher (pCreate : nat) (publisher : Publisher)
| CbSubscribe (pSubscribe : nat) (type : VideoType) (subscriber : Subscriber).

Record Reaction := {
  on_fulfilled : Kont;
  on_rejected : Kont;
  derived : nat
}.

Inductive PromiseState :=
| Pending (reactions : list Reaction)
| Fulfilled (value : Val)
| Rejected (reason : Val).

Record Job := { job_handler : Kont; job_arg : Val; job_derived : nat }.

(** Bookkeeping of one [Promise.all]. *)
Record AllState := { all_values : list Val; all_remaining : nat }.

(** ** The world *)

(** The module-level variables of communication.js. *)
Record Vars := {
  session : option Handle;
  accPack : option Handle;
  callProperties : option Props;
  screenProperties : option Props;
  streamContainers : option Handle;
  autoSubscribe : bool;
  connectionLimit : option Z;
  active : bool
}.

(** The promise runtime: the promises, the next free promise id, the
    [Promise.all] records, the microtask queue and the callbacks the SDK
    still holds. *)
Record Runtime := {
  heap : gmap nat PromiseState;
  next : nat;
  alls : gmap nat AllState;
  queue : list Job;
  pending : list Callback
}.

Record World := {
  vars : Vars;
  store : Store;
  trace : list Event;        (* newest first *)
  handles : nat;             (* handles the SDK has handed out so far *)
  runtime : Runtime
}.

Definition upd_vars (f : Vars -> Vars) (w : World) : World :=
  {| vars := f (vars w); store := store w; trace := trace w;
     handles := handles w; runtime := runtime w |}.
Definition upd_store (f : Store -> Store) (w : World) : World :=
  {| vars := vars w; store := f (store w); trace := trace w;
     handles := handles w; runtime := runtime w |}.
Definition upd_trace (f : list Event -> list Event) (w : World) : World :=
  {| vars := vars w; store := store w; trace := f (trace w);
     handles := handles w; runtime := runtime w |}.
Definition upd_handles (f : nat -> nat) (w : World) : World :=
  {| vars := vars w; store := store w; trace := trace w;
     handles := f (handles w); runtime := runtime w |}.
Definition upd_runtime (f : Runtime -> Runtime) (w : World) : World :=
  {| vars := vars w; store := store w; trace := trace w;
     handles := handles w; runtime := f (runtime w) |}.

Definition set_active (b : bool) (v : Vars) : Vars :=
  {| session := session v; accPack := accPack v;
     callProperties := callProperties v; screenProperties := screenProperties v;
     streamContainers := streamContainers v; autoSubscribe := autoSubscribe v;
     connectionLimit := connectionLimit v; active := b |}.

Definition upd_heap (f : gmap nat PromiseState -> gmap nat PromiseState)
    (r : Runtime) : Runtime :=
  {| heap := f (heap r); next := next r; alls := alls r; queue := queue r;
     pending := pending r |}.
Definition upd_next (f : nat -> nat) (r : Runtime) : Runtime :=
  {| heap := heap r; next := f (next r); alls := alls r; queue := queue r;
     pending := pending r |}.
Definition upd_alls (f : gmap nat AllState -> gmap nat AllState)
    (r : Runtime) : Runtime :=
  {| heap := heap r; next := next r; alls := f (alls r); queue := queue r;
     pending := pending r |}.
Definition upd_queue (f : list Job -> list Job) (r : Runtime) : Runtime :=
  {| heap := heap r; next := next r; alls := alls r; queue := f (queue r);
     pending := pending r |}.
Definition upd_pending (f : list Callback -> list Callback)
    (r : Runtime) : Runtime :=
  {| heap := heap r; next := next r; alls := alls r; queue := queue r;
     pending := f (pending r) |}.

(** * The monad of the module's code: state and exceptions *)

Inductive Res (A : Type) := Ok (a : A) | Throw (e : Val).
Arguments Ok {A} a.
Arguments Throw {A} e.

Definition M (A : Type) : Type := World -> Res A * World.

Definition ret {A} (a : A) : M A := fun w => (Ok a, w).
Definition throw {A} (e : Val) : M A := fun w => (Throw e, w).
Definition bind {A B} (m : M A) (k : A -> M B) : M B :=
  fun w => match m w with
           | (Ok a, w') => k a w'
           | (Throw e, w') => (Throw e, w')
           end.
Definition try_catch {A} (m : M A) (h : Val -> M A) : M A :=
  fun w => match m w with
           | (Throw e, w') => h e w'
           | r => r
           end.
Definition gets {A} (f : World -> A) : M A := fun w => (Ok (f w), w).
Definition modify (f : World -> World) : M unit := fun w => (Ok tt, f w).

Declare Scope M_scope.
Delimit Scope M_scope with M.
Bind Scope M_scope with M.
Notation "x ← m ; k" := (bind m (fun x => k))
  (at level 20, m at level 100, k at level 200, only parsing) : M_scope.
Notation "m ;; k" := (bind m (fun _ => k))
  (at level 100, k at level 200, only parsing, right associativity) : M_scope.
Local Open Scope M_scope.

Fixpoint mapM {A B} (f : A -> M B) (l : list A) : M (list B) :=
  match l with
  | [] => ret []
  | a :: l' => b ← f a; bs ← mapM f l'; ret (b :: bs)
  end.

Fixpoint forEach {A} (f : A -> M unit) (l : list A) : M unit :=
  match l with
  | [] => ret tt
  | a :: l' => f a;; forEach f l'
  end.

Definition emit (e : Event) : M unit := modify (upd_trace (cons e)).
Definition when (b : bool) (m : M unit) : M unit := if b then m else ret tt.

(** * Collaborators *)

(** ** logging, the event bus, OT and the session: recorded in the trace *)

Module logging.
Definition log (a : LogAction) (v : LogVariation) : M unit := emit (Log a v).
Definition error (msg : string) : M unit := emit (LogError msg).
Definition message (msg : string) (reason : Val) : M unit :=
  emit (LogMessage msg reason).
End logging.

(** A method call on a module variable that holds [undefined] throws a
    TypeError. *)
Definition defined {A} (what : string) (f : Vars -> option A) : M A :=
  o ← gets (fun w => f (vars w));
  match o with
  | Some a => ret a
  | None => throw (TypeError (what +:+ " is undefined"))
  end.

(** [OT.initPublisher(container, props, callback)]: the SDK returns the
    publisher at once and keeps the callback. *)
Definition OT_initPublisher (c : Container) (props : option Props)
    (callback : Publisher -> Callback) : M Publisher :=
  n ← gets handles;
  let publisher := {| publisher_id := n |} in
  modify (upd_handles S);;
  emit (OTInitPublisher c props publisher);;
  modify (upd_runtime (upd_pending (fun l => l ++ [callback publisher])));;
  ret publisher.

Definition session_publish (p : Publisher) : M unit :=
  _ ← defined "session" session; emit (SessionPublish p).

Definition session_unpublish (p : Publisher) : M unit :=
  _ ← defined "session" session; emit (SessionUnpublish p).

(** [session.subscribe(stream, container, options, callback)]: the SDK
    returns the subscriber at once and keeps the callback. *)
Definition session_subscribe (s : Stream) (c : Container)
    (options : option Props) (callback : Subscriber -> Callback)
    : M Subscriber :=
  _ ← defined "session" session;
  n ← gets handles;
  let subscriber := {| subscriber_id := n; subscriber_stream := s |} in
  modify (upd_handles S);;
  emit (SessionSubscribe s c options subscriber);;
  modify (upd_runtime (upd_pending (fun l => l ++ [callback subscriber])));;
  ret subscriber.

Definition session_unsubscribe (sub : Subscriber) : M unit :=
  _ ← defined "session" session; emit (SessionUnsubscribe sub).

(** [streamContainers(who, type, data)] *)
Definition call_streamContainers (who : string) (type : VideoType)
    (data : option string) : M Container :=
  f ← defined "streamContainers" streamContainers;
  ret {| container_fn := f; container_for := who; container_type := type;
         container_data := data |}.

(** [JSON.parse(path(['connection', 'data'], stream) || null)] *)
Definition JSON_parse_connection_data (s : Stream) : M (option string) :=
  match connection_data s with
  | NoData => ret None
  | JsonData text => ret (Some text)
  | BadData text =>
      throw (VError {| code := None; message := "Unexpected token in JSON" |})
  end.

(** Modelled from the spec: util.properCase is not under src/; the event
    names the spec lists ([subscribeToCamera], [unsubscribeFromScreen], ...)
    show that it puts the first letter of the type in upper case. *)
Definition properCase (text : string) : string :=
  match text with
  | EmptyString => EmptyString
  | String c rest =>
      let n := nat_of_ascii c in
      String (if (97 <=? n)%nat && (n <=? 122)%nat
              then ascii_of_nat (n - 32) else c) rest
  end.

(** ** The state module *)

Definition reg_empty {A} : Registry A := {| reg_camera := ∅; reg_screen := ∅ |}.

Definition reg_get {A} (t : VideoType) (r : Registry A) : gmap nat A :=
  match t with camera => reg_camera r | screen => reg_screen r end.

Definition reg_upd {A} (t : VideoType) (f : gmap nat A -> gmap nat A)
    (r : Registry A) : Registry A :=
  match t with
  | camera => {| reg_camera := f (reg_camera r); reg_screen := reg_screen r |}
  | screen => {| reg_camera := reg_camera r; reg_screen := f (reg_screen r) |}
  end.

Module state.

(** Modelled from the spec: the state module is not under src/.  The spec
    gives the registries as a mapping from stream kind (camera, screen) to
    a mapping of id to handle, changed only through the add and remove
    operations below; [getPubSub] is the aggregated publisher/subscriber
    state. *)
Definition getStreams : M (gmap string Stream) :=
  gets (fun w => streams (store w)).
Definition getStreamMap : M (gmap string nat) :=
  gets (fun w => streamMap (store w)).
Definition getPubSub : M PubSub :=
  gets (fun w => {| ps_publishers := publishers (store w);
                    ps_subscribers := subscribers (store w) |}).
Definition all : M Store := gets store.

(** Modelled from the spec: [addPublisher(type, publisher)] registers the
    publisher under its kind (spec 4.2). *)
Definition addPublisher (t : VideoType) (p : Publisher) : M unit :=
  modify (upd_store (fun s =>
    {| streams := streams s; streamMap := streamMap s;
       publishers := reg_upd t <[publisher_id p := p]> (publishers s);
       subscribers := subscribers s |})).

(** Modelled from the spec: [addSubscriber(subscriber)] registers the
    subscriber under the kind of its stream and records the stream id as
    subscribed (spec 4.3: registered on success, idempotent by stream
    id). *)
Definition addSubscriber (sub : Subscriber) : M unit :=
  modify (upd_store (fun s =>
    let st := subscriber_stream sub in
    {| streams := streams s;
       streamMap := <[stream_id st := subscriber_id sub]> (streamMap s);
       publishers := publishers s;
       subscribers := reg_upd (videoType st) <[subscriber_id sub := sub]>
                        (subscribers s) |})).

(** Modelled from the spec: [removeSubscriber(subscriber)] removes the
    subscriber from the registry (spec 4.4), and with it the record of
    its stream being subscribed. *)
Definition removeSubscriber (sub : Subscriber) : M unit :=
  modify (upd_store (fun s =>
    let st := subscriber_stream sub in
    {| streams := streams s;
       streamMap := delete (stream_id st) (streamMap s);
       publishers := publishers s;
       subscribers := reg_upd (videoType st) (delete (subscriber_id sub))
                        (subscribers s) |})).

(** Modelled from the spec: [removeStream(stream)] removes the stream
    from the registry (spec 4.5) and tears down what the store holds of
    its subscription (spec 2, subscribe/unsubscribe flow). *)
Definition removeStream (st : Stream) : M unit :=
  modify (upd_store (fun s =>
    {| streams := delete (stream_id st) (streams s);
       streamMap := delete (stream_id st) (streamMap s);
       publishers := publishers s;
       subscribers :=
         match streamMap s !! stream_id st with
         | Some id => reg_upd (videoType st) (delete id) (subscribers s)
         | None => subscribers s
         end |})).

(** Modelled from the spec: [removeAllPublishers] and
    [removeAllSubscribers] clear the two registries (spec 4.6, 8); with
    the subscribers goes the record of the streams subscribed. *)
Definition removeAllPublishers : M unit :=
  modify (upd_store (fun s =>
    {| streams := streams s; streamMap := streamMap s;
       publishers := reg_empty; subscribers := subscribers s |})).
Definition removeAllSubscribers : M unit :=
  modify (upd_store (fun s =>
    {| streams := streams s; streamMap := ∅;
       publishers := publishers s; subscribers := reg_empty |})).

End state.

(** * Promises and the microtask queue *)

Definition lookup_promise (p : nat) : M (option PromiseState) :=
  gets (fun w => heap (runtime w) !! p).

Definition store_promise (p : nat) (s : PromiseState) : M unit :=
  modify (upd_runtime (upd_heap <[p := s]>)).

Definition enqueue (js : list Job) : M unit :=
  modify (upd_runtime (upd_queue (fun q => q ++ js))).

(** A new pending promise. *)
Definition alloc : M nat :=
  p ← gets (fun w => next (runtime w));
  modify (upd_runtime (upd_next S));;
  store_promise p (Pending []);;
  ret p.

(** Settling a pending promise queues one job per reaction; settling a
    settled promise does nothing. *)
Definition settle (p : nat) (s : Val -> PromiseState)
    (handler : Reaction -> Kont) (v : Val) : M unit :=
  o ← lookup_promise p;
  match o with
  | Some (Pending rs) =>
      store_promise p (s v);;
      enqueue (map (fun r => {| job_handler := handler r; job_arg := v;
                                job_derived := derived r |}) rs)
  | _ => ret tt
  end.

Definition resolve (p : nat) (v : Val) : M unit :=
  settle p Fulfilled on_fulfilled v.
Definition reject (p : nat) (v : Val) : M unit :=
  settle p Rejected on_rejected v.

(** [p.then(onFulfilled, onRejected)]: the derived promise. *)
Definition then_ (p : nat) (onFulfilled onRejected : Kont) : M nat :=
  d ← alloc;
  o ← lookup_promise p;
  match o with
  | Some (Pending rs) =>
      store_promise p
        (Pending (rs ++ [{| on_fulfilled := onFulfilled;
                            on_rejected := onRejected; derived := d |}]))
  | Some (Fulfilled v) =>
      enqueue [{| job_handler := onFulfilled; job_arg := v; job_derived := d |}]
  | Some (Rejected v) =>
      enqueue [{| job_handler := onRejected; job_arg := v; job_derived := d |}]
  | None => ret tt
  end;;
  ret d.

(** [p.catch(onRejected)] is [p.then(undefined, onRejected)]. *)
Definition catch_ (p : nat) (onRejected : Kont) : M nat :=
  then_ p KIdentity onRejected.

(** [new Promise(executor)]: the executor runs at once; what it throws
    rejects the promise. *)
Definition new_Promise (executor : nat -> M unit) : M nat :=
  p ← alloc;
  try_catch (executor p) (fun e => reject p e);;
  ret p.

(** [Promise.all(promises)], after the language specification: one
    resolve-element function per promise and a count of the elements still
    awaited, which starts at one and loses that one once every element has
    been visited. *)
Definition all_state (pAll : nat) : M AllState :=
  o ← gets (fun w => alls (runtime w) !! pAll);
  ret (default {| all_values := []; all_remaining := 0 |} o).

Definition set_all_state (pAll : nat) (a : AllState) : M unit :=
  modify (upd_runtime (upd_alls <[pAll := a]>)).

Definition all_element_done (pAll : nat) (values : list Val) : M unit :=
  a ← all_state pAll;
  let remaining := pred (all_remaining a) in
  set_all_state pAll {| all_values := values; all_remaining := remaining |};;
  when (Nat.eqb remaining 0) (resolve pAll (VArray values)).

Fixpoint all_visit (pAll : nat) (index : nat) (promises : list nat) : M unit :=
  match promises with
  | [] => ret tt
  | p :: rest =>
      a ← all_state pAll;
      set_all_state pAll {| all_values := all_values a ++ [VUndefined];
                            all_remaining := S (all_remaining a) |};;
      _ ← then_ p (KAllResolveElement pAll index) (KAllReject pAll);
      all_visit pAll (S index) rest
  end.

Definition Promise_all (promises : list nat) : M nat :=
  pAll ← alloc;
  set_all_state pAll {| all_values := []; all_remaining := 1 |};;
  all_visit pAll 0 promises;;
  a ← all_state pAll;
  all_element_done pAll (all_values a);;
  ret pAll.

(** * communication.js *)

#[global] Instance VideoType_eq_dec : EqDecision VideoType.
Proof. solve_decision. Defined.

(** [Object.values(o)] *)
Definition Object_values {K A} `{Countable K} (o : gmap K A) : list A :=
  (map_to_list o).*2.

(** [triggerEvent(event, data)]: [accPack.triggerEvent(event, data)] *)
Definition triggerEvent (event : string) (data : Val) : M unit :=
  _ ← defined "accPack" accPack; emit (TriggerEvent event data).

(** [accPack.on(event, listener)] *)
Definition accPack_on (event : string) (l : Listener) : M unit :=
  _ ← defined "accPack" accPack; emit (AccPackOn event l).

Definition ableToJoin : M bool :=
  limit ← gets (fun w => connectionLimit (vars w));
  match limit with
  | None => ret true                       (* !connectionLimit: null, undefined *)
  | Some 0%Z => ret true                   (* !connectionLimit: zero *)
  | Some limit =>
      streams ← state.getStreams;
      let cameraStreams :=
        List.filter (fun s => bool_decide (videoType s = camera))
                    (Object_values streams) in
      ret (Z.of_nat (length cameraStreams) <? limit)%Z
  end.

Definition createPublisher : M nat :=
  new_Promise (fun pCreate =>
    props ← gets (fun w => callProperties (vars w));
    container ← call_streamContainers "publisher" camera None;
    _ ← OT_initPublisher container props (CbInitPublisher pCreate);
    ret tt).

Definition publish : M nat :=
  new_Promise (fun pPublish =>
    pCreate ← createPublisher;
    pThen ← then_ pCreate (KPublishThen pPublish) KThrower;
    _ ← catch_ pThen (KPublishCatch pPublish);
    ret tt).

(** The body of [.then((publisher) => ...)] in [publish]. *)
Definition publish_then (pPublish : nat) (v : Val) : M Val :=
  match v with
  | VPublisher publisher =>
      state.addPublisher camera publisher;;
      session_publish publisher;;
      logging.log la_startCall success;;
      resolve pPublish VUndefined;;
      ret VUndefined
  | _ => throw (TypeError "publisher is undefined")
  end.

(** [error.code === 1010] and [error.message] *)
Definition has_code (v : Val) (n : Z) : bool :=
  match v with
  | VError e => bool_decide (code e = Some n)
  | _ => false
  end.
Definition message_of (v : Val) : Val :=
  match v with
  | VError e => VString (message e)
  | _ => VUndefined
  end.

(** The body of [.catch((error) => ...)] in [publish]. *)
Definition publish_catch (pPublish : nat) (error : Val) : M Val :=
  logging.log la_startCall fail;;
  let errorMessage :=
    if has_code error 1010 then VString "Check your network connection"
    else message_of error in
  triggerEvent "error" errorMessage;;
  reject pPublish error;;
  ret VUndefined.

Definition subscribe (stream : Stream) : M nat :=
  new_Promise (fun pSubscribe =>
    logging.log la_subscribe attempt;;
    streamMap ← state.getStreamMap;
    match streamMap !! stream_id stream with
    | Some _ => resolve pSubscribe VUndefined
    | None =>
        let type := videoType stream in
        connectionData ← JSON_parse_connection_data stream;
        container ← call_streamContainers "subscriber" type connectionData;
        options ← gets (fun w => if bool_decide (type = camera)
                                 then callProperties (vars w)
                                 else screenProperties (vars w));
        _ ← session_subscribe stream container options
              (CbSubscribe pSubscribe type);
        ret tt
    end).

(** The callback [subscribe] hands to [session.subscribe]. *)
Definition subscribe_callback (pSubscribe : nat) (type : VideoType)
    (subscriber : Subscriber) (error : option Error) : M unit :=
  match error with
  | Some e =>
      logging.log la_subscribe fail;;
      reject pSubscribe (VError e)
  | None =>
      state.addSubscriber subscriber;;
      all ← state.all;
      triggerEvent ("subscribeTo" +:+ properCase (typeName type))
                   (VSubscribed subscriber all);;
      when (bool_decide (type = screen))
           (triggerEvent "startViewingSharedScreen" (VSubscriber subscriber));;
      logging.log la_subscribe success;;
      resolve pSubscribe VUndefined
  end.

(** The callback [createPublisher] hands to [OT.initPublisher]. *)
Definition initPublisher_callback (pCreate : nat) (publisher : Publisher)
    (error : option Error) : M unit :=
  match error with
  | Some e => reject pCreate (VError e)
  | None => resolve pCreate (VPublisher publisher)
  end.

Definition unsubscribe (subscriber : Subscriber) : M nat :=
  new_Promise (fun p =>
    logging.log la_unsubscribe attempt;;
    session_unsubscribe subscriber;;
    state.removeSubscriber subscriber;;
    logging.log la_unsubscribe success;;
    resolve p VUndefined).

(** The options object of [init]: a field is [None] when it is missing (or
    holds a falsy value); [o_autoSubscribe] is [None] when the object has no
    own property of that name. *)
Record Options := {
  o_session : option Handle;
  o_publishers : option Handle;
  o_subscribers : option Handle;
  o_streams : option Handle;
  o_accPack : option Handle;
  o_streamContainers : option Handle;
  o_callProperties : option Props;
  o_screenProperties : option Props;
  o_connectionLimit : option Z;
  o_autoSubscribe : option bool
}.

Definition present {A} (o : option A) : bool :=
  match o with Some _ => true | None => false end.

(** [options.connectionLimit || null] *)
Definition limit_or_null (o : option Z) : option Z :=
  match o with
  | Some 0%Z => None
  | other => other
  end.

Definition validateOptions (options : Options) : M unit :=
  let requiredOptions :=
    [("session", present (o_session options));
     ("publishers", present (o_publishers options));
     ("subscribers", present (o_subscribers options));
     ("streams", present (o_streams options));
     ("accPack", present (o_accPack options))] in
  forEach (fun '(name, given) =>
             when (negb given) (logging.error (name +:+ " is a required option.")))
          requiredOptions;;
  modify (upd_vars (fun v =>
    {| session := o_session options;
       accPack := o_accPack options;
       streamContainers := o_streamContainers options;
       callProperties :=
         Some (default defaultCallProperties (o_callProperties options));
       connectionLimit := limit_or_null (o_connectionLimit options);
       autoSubscribe := default true (o_autoSubscribe options);
       screenProperties :=
         Some (default defaultWindowProperties (o_screenProperties options));
       active := active v |})).

Definition onStreamCreated (stream : Stream) : M unit :=
  isActive ← gets (fun w => active (vars w));
  auto ← gets (fun w => autoSubscribe (vars w));
  if isActive && auto then _ ← subscribe stream; ret tt else ret tt.

Definition onStreamDestroyed (stream : Stream) : M unit :=
  state.removeStream stream;;
  let type := videoType stream in
  when (bool_decide (type = screen))
       (triggerEvent "endViewingSharedScreen" VUndefined);;
  pubSub ← state.getPubSub;
  triggerEvent ("unsubscribeFrom" +:+ properCase (typeName type))
               (VPubSub pubSub).

Definition createEventListeners : M unit :=
  accPack_on "streamCreated" l_onStreamCreated;;
  accPack_on "streamDestroyed" l_onStreamDestroyed.

Definition startCall : M nat :=
  new_Promise (fun pStart =>
    logging.log la_startCall attempt;;
    able ← ableToJoin;
    if negb able then
      let errorMessage := "Session has reached its connection limit" in
      triggerEvent "error" (VString errorMessage);;
      logging.log la_startCall fail;;
      reject pStart (VError {| code := None; message := errorMessage |})
    else
      pPublish ← publish;
      _ ← then_ pPublish (KStartCallThen pStart) KThrower;
      ret tt).

(** The body of [publish().then(() => ...)] in [startCall]. *)
Definition startCall_then (pStart : nat) : M Val :=
  streams ← state.getStreams;
  initialSubscriptions ←
    mapM (fun '(id, stream) => subscribe stream) (map_to_list streams);
  pAll ← Promise_all initialSubscriptions;
  pThen ← then_ pAll (KAllThen pStart) KThrower;
  _ ← catch_ pThen KAllCatch;
  ret VUndefined.

(** The body of [Promise.all(initialSubscriptions).then(() => ...)]. *)
Definition startCall_all_then (pStart : nat) : M Val :=
  pubSubData ← state.getPubSub;
  triggerEvent "startCall" (VPubSub pubSubData);;
  modify (upd_vars (set_active true));;
  resolve pStart (VPubSub pubSubData);;
  ret VUndefined.

(** The body of [.catch(reason => logging.message(...))]. *)
Definition startCall_all_catch (reason : Val) : M Val :=
  logging.message "Failed to subscribe to all existing streams: " reason;;
  ret VUndefined.

Definition endCall : M unit :=
  logging.log la_endCall attempt;;
  pubSub ← state.getPubSub;
  let publishers := ps_publishers pubSub in
  let unpublish := fun publisher => session_unpublish publisher in
  forEach unpublish (Object_values (reg_camera publishers));;
  forEach unpublish (Object_values (reg_screen publishers));;
  state.removeAllPublishers;;
  state.removeAllSubscribers;;
  modify (upd_vars (set_active false));;
  logging.log la_endCall success.

(** The methods the handles of the SDK have for the two sources the
    documentation of [enableLocalAV] and [enableRemoteAV] names, ['audio']
    and ['video']; [handle[method]] is [undefined] for any other name, and
    calling it throws a TypeError. *)
Definition publisher_methods : list string := ["publishAudio"; "publishVideo"].
Definition subscriber_methods : list string :=
  ["subscribeToAudio"; "subscribeToVideo"].

Definition enableLocalAV (id : nat) (source : string) (enable : bool) : M unit :=
  let method := "publish" +:+ properCase source in
  pubSub ← state.getPubSub;
  match reg_camera (ps_publishers pubSub) !! id with
  | Some publisher =>
      if bool_decide (method ∈ publisher_methods)
      then emit (PublisherEnable publisher method enable)
      else throw (TypeError "publishers.camera[id][method] is not a function")
  | None => throw (TypeError "publishers.camera[id] is undefined")
  end.

Definition enableRemoteAV (subscriberId : nat) (source : string)
    (enable : bool) : M unit :=
  let method := "subscribeTo" +:+ properCase source in
  pubSub ← state.getPubSub;
  match reg_camera (ps_subscribers pubSub) !! subscriberId with
  | Some subscriber =>
      if bool_decide (method ∈ subscriber_methods)
      then emit (SubscriberEnable subscriber method enable)
      else throw
             (TypeError "subscribers.camera[subscriberId][method] is not a function")
  | None => throw (TypeError "subscribers.camera[subscriberId] is undefined")
  end.

Definition init (options : Options) : M nat :=
  new_Promise (fun p =>
    validateOptions options;;
    createEventListeners;;
    resolve p VUndefined).

(** * Running the continuations *)

Definition run_kont (k : Kont) (v : Val) : M Val :=
  match k with
  | KIdentity => ret v
  | KThrower => throw v
  | KPublishThen pPublish => publish_then pPublish v
  | KPublishCatch pPublish => publish_catch pPublish v
  | KStartCallThen pStart => startCall_then pStart
  | KAllThen pStart => startCall_all_then pStart
  | KAllCatch => startCall_all_catch v
  | KAllResolveElement pAll index =>
      a ← all_state pAll;
      all_element_done pAll (<[index := v]> (all_values a));;
      ret VUndefined
  | KAllReject pAll => reject pAll v;; ret VUndefined
  end.

(** A reaction job: the handler's result resolves the derived promise, what
    it throws rejects it. *)
Definition run_job (j : Job) : M unit :=
  try_catch (v ← run_kont (job_handler j) (job_arg j);
             resolve (job_derived j) v)
            (fun e => reject (job_derived j) e).

Definition run_callback (cb : Callback) (error : option Error) : M unit :=
  match cb with
  | CbInitPublisher pCreate publisher =>
      initPublisher_callback pCreate publisher error
  | CbSubscribe pSubscribe type subscriber =>
      subscribe_callback pSubscribe type subscriber error
  end.

(** The world after a computation, whatever it returns or throws. *)
Definition exec {A} (m : M A) (w : World) : World := (m w).2.

(** One microtask: the job at the head of the queue. *)
Definition microtask (w : World) : World :=
  match queue (runtime w) with
  | [] => w
  | j :: q => exec (run_job j) (upd_runtime (upd_queue (fun _ => q)) w)
  end.

(** The microtask checkpoint: jobs run until the queue is empty. *)
Fixpoint drain (fuel : nat) (w : World) : World :=
  match fuel with
  | 0 => w
  | S fuel' =>
      match queue (runtime w) with
      | [] => w
      | _ => drain fuel' (microtask w)
      end
  end.

(** The SDK answers the [i]-th callback it holds. *)
Definition fire (i : nat) (error : option Error) (w : World) : World :=
  match pending (runtime w) !! i with
  | None => w
  | Some cb =>
      exec (run_callback cb error) (upd_runtime (upd_pending (delete i)) w)
  end.

(** * Observations on a world *)

Definition promise_state (w : World) (p : nat) : option PromiseState :=
  heap (runtime w) !! p.

(** The streams [ableToJoin] counts. *)
Definition cameraStreams (w : World) : list Stream :=
  List.filter (fun s => bool_decide (videoType s = camera))
              (Object_values (streams (store w))).

Definition limitMessage : string := "Session has reached its connection limit".
Definition limitError : Val :=
  VError {| code := None; message := limitMessage |}.

Definition is_trigger (e : Event) : bool :=
  match e with TriggerEvent _ _ => true | _ => false end.

(** Calls to [session.subscribe] recorded in a trace. *)
Definition sdk_subscribe_calls (tr : list Event) : nat :=
  length (List.filter (fun e => match e with
                                | SessionSubscribe _ _ _ _ => true
                                | _ => false
                                end) tr).

(** Calls of the module's own [subscribe] recorded in a trace: each one
    starts with [logging.log(logAction.subscribe, logVariation.attempt)],
    which nothing else logs. *)
Definition subscribe_calls (tr : list Event) : nat :=
  length (List.filter (fun e => match e with
                                | Log la_subscribe attempt => true
                                | _ => false
                                end) tr).

Definition pubSub_of (s : Store) : PubSub :=
  {| ps_publishers := publishers s; ps_subscribers := subscribers s |}.

(** The message of the ['error'] event [publish] emits for [e]. *)
Definition publish_error_message (e : Error) : string :=
  if bool_decide (code e = Some 1010%Z) then "Check your network connection"
  else message e.

(** What [validateOptions] logs for the required options that are missing,
    newest first. *)
Definition required_error (name : string) (given : bool) : list Event :=
  if given then [] else [LogError (name +:+ " is a required option.")].

Definition required_errors (options : Options) : list Event :=
  required_error "accPack" (present (o_accPack options))
  ++ required_error "streams" (present (o_streams options))
  ++ required_error "subscribers" (present (o_subscribers options))
  ++ required_error "publishers" (present (o_publishers options))
  ++ required_error "session" (present (o_session options)).

(** The module variables [validateOptions] assigns. *)
Definition configured (options : Options) (isActive : bool) : Vars :=
  {| session := o_session options;
     accPack := o_accPack options;
     callProperties :=
       Some (default defaultCallProperties (o_callProperties options));
     screenProperties :=
       Some (default defaultWindowProperties (o_screenProperties options));
     streamContainers := o_streamContainers options;
     autoSubscribe := default true (o_autoSubscribe options);
     connectionLimit := limit_or_null (o_connectionLimit options);
     active := isActive |}.

Arguments ret {A} a w /.
Arguments throw {A} e w /.
Arguments bind {A B} m k w /.
Arguments try_catch {A} m h w /.
Arguments gets {A} f w /.
Arguments modify f w /.
Arguments exec {A} m w /.
Arguments emit e w /.
Arguments when b m w /.
Arguments defined {A} what f w /.
Arguments ableToJoin : simpl never.
Arguments createPublisher : simpl never.
Arguments publish : simpl never.
Arguments subscribe : simpl never.
Arguments unsubscribe : simpl never.
Arguments validateOptions : simpl never.
Arguments createEventListeners : simpl never.
Arguments onStreamCreated : simpl never.
Arguments onStreamDestroyed : simpl never.
Arguments startCall : simpl never.
Arguments startCall_then : simpl never.
Arguments endCall : simpl never.
Arguments init : simpl never.
Arguments Promise_all : simpl never.
Arguments microtask : simpl never.
Arguments drain : simpl never.
Arguments fire : simpl never.
Arguments upd_vars f w /.
Arguments upd_store f w /.
Arguments upd_trace f w /.
Arguments upd_handles f w /.
Arguments upd_runtime f w /.
Arguments upd_heap f r /.
Arguments upd_next f r /.
Arguments upd_alls f r /.
Arguments upd_queue f r /.
Arguments upd_pending f r /.
Arguments set_active b v /.

Create HintDb comm discriminated.
#[local] Hint Unfold new_Promise alloc store_promise lookup_promise enqueue
  settle resolve reject then_ catch_
  logging.log logging.error logging.message triggerEvent accPack_on
  session_publish session_unpublish session_subscribe session_unsubscribe
  OT_initPublisher call_streamContainers JSON_parse_connection_data
  state.getStreams state.getStreamMap state.getPubSub state.all
  state.addPublisher state.addSubscriber state.removeSubscriber
  state.removeStream state.removeAllPublishers state.removeAllSubscribers
  promise_state cameraStreams limitError limitMessage pubSub_of : comm.

(** ** What one call of [subscribe] does, by the world it finds *)

Inductive SubscribeOutcome :=
| AlreadySubscribed
| Asked (c : Container) (options : option Props)
| Threw (e : Val).

Definition subscribe_outcome (stream : Stream) (w : World) : SubscribeOutcome :=
  match streamMap (store w) !! stream_id stream with
  | Some _ => AlreadySubscribed
  | None =>
      match connection_data stream, streamContainers (vars w), session (vars w) with
      | BadData _, _, _ =>
          Threw (VError {| code := None; message := "Unexpected token in JSON" |})
      | _, None, _ => Threw (TypeError "streamContainers is undefined")
      | _, _, None => Threw (TypeError "session is undefined")
      | data, Some f, Some _ =>
          Asked {| container_fn := f; container_for := "subscriber";
                   container_type := videoType stream;
                   container_data :=
                     match data with JsonData text => Some text | _ => None end |}
                (if bool_decide (videoType stream = camera)
                 then callProperties (vars w) else screenProperties (vars w))
      end
  end.

(** The world with one more promise, in state [s]. *)
Definition with_promise (s : PromiseState) (w : World) : World :=
  upd_runtime (fun r => upd_heap <[next r := s]> (upd_next S r)) w.

Definition after_subscribe (stream : Stream) (w : World) : World :=
  let p := next (runtime w) in
  match subscribe_outcome stream w with
  | AlreadySubscribed =>
      with_promise (Fulfilled VUndefined)
        (upd_trace (cons (Log la_subscribe attempt)) w)
  | Threw e =>
      with_promise (Rejected e) (upd_trace (cons (Log la_subscribe attempt)) w)
  | Asked c options =>
      let subscriber :=
        {| subscriber_id := handles w; subscriber_stream := stream |} in
      with_promise (Pending [])
        (upd_runtime (upd_pending (fun l =>
                        l ++ [CbSubscribe p (videoType stream) subscriber]))
           (upd_handles S
              (upd_trace (fun t => SessionSubscribe stream c options subscriber
                                   :: Log la_subscribe attempt :: t) w)))
  end.

(** ** Worlds for the examples *)

Definition no_vars : Vars :=
  {| session := None; accPack := None; callProperties := None;
     screenProperties := None; streamContainers := None;
     autoSubscribe := false; connectionLimit := None; active := false |}.

Definition empty_store : Store :=
  {| streams := ∅; streamMap := ∅; publishers := reg_empty;
     subscribers := reg_empty |}.

Definition empty_runtime : Runtime :=
  {| heap := ∅; next := 0; alls := ∅; queue := []; pending := [] |}.

(** The module as loaded, before [init]. *)
Definition loaded : World :=
  {| vars := no_vars; store := empty_store; trace := []; handles := 0;
     runtime := empty_runtime |}.

Definition all_options : Options :=
  {| o_session := Some 1; o_publishers := Some 2; o_subscribers := Some 3;
     o_streams := Some 4; o_accPack := Some 5; o_streamContainers := Some 6;
     o_callProperties := None; o_screenProperties := None;
     o_connectionLimit := None; o_autoSubscribe := None |}.

Definition options_without_accPack : Options :=
  {| o_session := Some 1; o_publishers := Some 2; o_subscribers := Some 3;
     o_streams := Some 4; o_accPack := None; o_streamContainers := Some 6;
     o_callProperties := None; o_screenProperties := None;
     o_connectionLimit := None; o_autoSubscribe := None |}.

Definition options_with_limit (n : Z) : Options :=
  {| o_session := Some 1; o_publishers := Some 2; o_subscribers := Some 3;
     o_streams := Some 4; o_accPack := Some 5; o_streamContainers := Some 6;
     o_callProperties := None; o_screenProperties := None;
     o_connectionLimit := Some n; o_autoSubscribe := None |}.

Definition camera_stream (id : string) : Stream :=
  {| stream_id := id; videoType := camera; connection_data := NoData |}.
Definition screen_stream (id : string) : Stream :=
  {| stream_id := id; videoType := screen; connection_data := NoData |}.

(** The module after [init(options)], the microtask queue drained. *)
Definition initialised (options : Options) : World :=
  drain 1 (exec (init options) loaded).

(** Another module puts a stream in the registry. *)
Definition with_stream (s : Stream) (w : World) : World :=
  upd_store (fun st =>
    {| streams := <[stream_id s := s]> (streams st); streamMap := streamMap st;
       publishers := publishers st; subscribers := subscribers st |}) w.

(** * What can still settle a promise *)

(** The promises a continuation can settle: those whose [resolve] or
    [reject] it closes over. *)
Definition kont_refs (k : Kont) : list nat :=
  match k with
  | KIdentity | KThrower | KAllCatch => []
  | KPublishThen p | KPublishCatch p | KStartCallThen p | KAllThen p
  | KAllReject p | KAllResolveElement p _ => [p]
  end.

Definition reaction_refs (r : Reaction) : list nat :=
  derived r :: kont_refs (on_fulfilled r) ++ kont_refs (on_rejected r).

Definition job_refs (j : Job) : list nat :=
  job_derived j :: kont_refs (job_handler j).

Definition cb_promise (cb : Callback) : nat :=
  match cb with
  | CbInitPublisher p _ => p
  | CbSubscribe p _ _ => p
  end.

Definition reactions_of (s : PromiseState) : list Reaction :=
  match s with Pending rs => rs | _ => [] end.

(** No reaction of any promise, no queued job and no callback held by the
    SDK can settle [p]. *)
Definition unreferenced (p : nat) (w : World) : Prop :=
  (forall q s r, heap (runtime w) !! q = Some s -> r ∈ reactions_of s ->
                 p ∉ reaction_refs r) /\
  (forall j, j ∈ queue (runtime w) -> p ∉ job_refs j) /\
  (forall cb, cb ∈ pending (runtime w) -> cb_promise cb <> p).

(** [p] is pending, nobody waits on it and nothing can settle it. *)
Definition abandoned (p : nat) (w : World) : Prop :=
  promise_state w p = Some (Pending []) /\
  p < next (runtime w) /\
  unreferenced p w.

(** ** Everything that can happen to the module *)

Inductive Input :=
| CallInit (options : Options)
| CallStartCall
| CallEndCall
| CallSubscribe (stream : Stream)
| CallUnsubscribe (subscriber : Subscriber)
| CallEnableLocalAV (id : nat) (source : string) (enable : bool)
| CallEnableRemoteAV (id : nat) (source : string) (enable : bool)
| StreamCreated (stream : Stream)        (* the event bus calls the listener *)
| StreamDestroyed (stream : Stream)
| SdkCallback (i : nat) (error : option Error)
| Microtask
| StoreWritten (s : Store).              (* another module writes the store *)

Definition react (i : Input) (w : World) : World :=
  match i with
  | CallInit options => exec (init options) w
  | CallStartCall => exec startCall w
  | CallEndCall => exec endCall w
  | CallSubscribe stream => exec (subscribe stream) w
  | CallUnsubscribe subscriber => exec (unsubscribe subscriber) w
  | CallEnableLocalAV id source enable => exec (enableLocalAV id source enable) w
  | CallEnableRemoteAV id source enable => exec (enableRemoteAV id source enable) w
  | StreamCreated stream => exec (onStreamCreated stream) w
  | StreamDestroyed stream => exec (onStreamDestroyed stream) w
  | SdkCallback i error => fire i error w
  | Microtask => microtask w
  | StoreWritten s => upd_store (fun _ => s) w
  end.

(** The worlds the module can get to; the relation allows every
    interleaving, those the event loop rules out included. *)
Definition reachable : World -> World -> Prop :=
  rtc (fun w w' => exists i, w' = react i w).

(** A computation keeps [p] abandoned, and what it returns satisfies
    [post]. *)
Definition keeps (p : nat) {A} (m : M A) (post : A -> Prop) : Prop :=
  forall w, abandoned p w ->
    abandoned p (m w).2 /\ forall a, (m w).1 = Ok a -> post a.

(** * The asynchronous part of one call of startCall *)

(** One run of [startCall] past a successful publish: the promise
    [startCall] returned, the promise of the first initial subscription (the
    others follow it), their number, and the trace and the active flag when
    [startCall] was called. *)
Record Call := {
  c_start : nat;
  c_first : nat;
  c_count : nat;
  c_trace : list Event;
  c_active : bool
}.

(** Promise [i] of the initial subscriptions, the promise of
    [Promise.all], the promise its [then] on element [i] derives, and the
    promises of [.then(...)] and [.catch(...)] on it. *)
Definition c_sub (c : Call) (i : nat) : nat := c_first c + i.
Definition c_all (c : Call) : nat := c_first c + c_count c.
Definition c_elem (c : Call) (i : nat) : nat := c_first c + c_count c + 1 + i.
Definition c_then (c : Call) : nat := c_first c + c_count c + c_count c + 1.
Definition c_catch (c : Call) : nat := c_first c + c_count c + c_count c + 2.

Arguments c_sub : simpl never.
Arguments c_all : simpl never.
Arguments c_elem : simpl never.
Arguments c_then : simpl never.
Arguments c_catch : simpl never.

Definition elem_reaction (c : Call) (i : nat) : Reaction :=
  {| on_fulfilled := KAllResolveElement (c_all c) i;
     on_rejected := KAllReject (c_all c);
     derived := c_elem c i |}.
Definition then_reaction (c : Call) : Reaction :=
  {| on_fulfilled := KAllThen (c_start c); on_rejected := KThrower;
     derived := c_then c |}.
Definition catch_reaction (c : Call) : Reaction :=
  {| on_fulfilled := KIdentity; on_rejected := KAllCatch;
     derived := c_catch c |}.

(** How far an initial subscription has got: the SDK has not answered; the
    promise is settled and the job [Promise.all] attached to it is queued;
    that job has run, on a fulfilled or on a rejected promise. *)
Inductive Status := Waiting | Queued | Counted | Failed.

(** How far the chain after [Promise.all] has got. *)
Inductive Phase :=
| Open                      (* Promise.all pending *)
| Resolved (v : Val)        (* fulfilled; the then-handler is queued *)
| Starting (d : PubSub)     (* the then-handler has run; one job remains *)
| Started (d : PubSub)
| Refusing (e : Val)        (* rejected; the rejection travels to the catch *)
| Catching (e : Val)        (* the catch-handler is queued *)
| Refused (e : Val).        (* the catch-handler has run *)

Definition settled (r : Val + Val) : PromiseState :=
  match r with inl v => Fulfilled v | inr e => Rejected e end.

(** The job queued for element [i] once its promise has settled. *)
Definition elem_job (c : Call) (ir : nat * (Val + Val)) : Job :=
  match ir.2 with
  | inl v => {| job_handler := KAllResolveElement (c_all c) ir.1;
                job_arg := v; job_derived := c_elem c ir.1 |}
  | inr e => {| job_handler := KAllReject (c_all c);
                job_arg := e; job_derived := c_elem c ir.1 |}
  end.

Definition tail_jobs (c : Call) (ph : Phase) : list Job :=
  match ph with
  | Open | Started _ | Refused _ => []
  | Resolved v =>
      [{| job_handler := KAllThen (c_start c); job_arg := v;
          job_derived := c_then c |}]
  | Starting _ =>
      [{| job_handler := KIdentity; job_arg := VUndefined;
          job_derived := c_catch c |}]
  | Refusing e =>
      [{| job_handler := KThrower; job_arg := e; job_derived := c_then c |}]
  | Catching e =>
      [{| job_handler := KAllCatch; job_arg := e; job_derived := c_catch c |}]
  end.

Definition is_counted (s : Status) : bool :=
  match s with Counted => true | _ => false end.

(** The elements [Promise.all] still awaits. *)
Definition uncounted (sts : list Status) : nat :=
  length (List.filter (fun s => negb (is_counted s)) sts).

Definition failureMessage : string :=
  "Failed to subscribe to all existing streams: ".

Definition is_startCall_event (e : Event) : bool :=
  match e with
  | TriggerEvent name _ => String.eqb name "startCall"
  | _ => false
  end.

Definition is_failure_message (e : Event) : bool :=
  match e with LogMessage _ _ => true | _ => false end.

Definition phase_events (ph : Phase) : list Event :=
  match ph with
  | Starting d | Started d => [TriggerEvent "startCall" (VPubSub d)]
  | _ => []
  end.

Definition phase_messages (ph : Phase) : list Event :=
  match ph with
  | Refused e => [LogMessage failureMessage e]
  | _ => []
  end.

(** What the phase says of the promises of the chain, of the count and of
    the active flag. *)
Definition phase_inv (c : Call) (ph : Phase) (sts : list Status) (w : World)
    : Prop :=
  match ph with
  | Open =>
      promise_state w (c_all c) = Some (Pending [then_reaction c]) /\
      promise_state w (c_then c) = Some (Pending [catch_reaction c]) /\
      promise_state w (c_catch c) = Some (Pending []) /\
      promise_state w (c_start c) = Some (Pending []) /\
      0 < uncounted sts /\ (Failed ∉ sts) /\
      active (vars w) = c_active c
  | Resolved v =>
      promise_state w (c_all c) = Some (Fulfilled v) /\
      promise_state w (c_then c) = Some (Pending [catch_reaction c]) /\
      promise_state w (c_catch c) = Some (Pending []) /\
      promise_state w (c_start c) = Some (Pending []) /\
      uncounted sts = 0 /\
      active (vars w) = c_active c
  | Starting d =>
      promise_state w (c_catch c) = Some (Pending []) /\
      promise_state w (c_start c) = Some (Fulfilled (VPubSub d)) /\
      uncounted sts = 0 /\
      active (vars w) = true /\ d = pubSub_of (store w)
  | Started d =>
      promise_state w (c_start c) = Some (Fulfilled (VPubSub d)) /\
      uncounted sts = 0 /\
      active (vars w) = true /\ d = pubSub_of (store w)
  | Refusing e =>
      promise_state w (c_all c) = Some (Rejected e) /\
      promise_state w (c_then c) = Some (Pending [catch_reaction c]) /\
      promise_state w (c_catch c) = Some (Pending []) /\
      promise_state w (c_start c) = Some (Pending []) /\
      Failed ∈ sts /\
      active (vars w) = c_active c
  | Catching e =>
      promise_state w (c_all c) = Some (Rejected e) /\
      promise_state w (c_catch c) = Some (Pending []) /\
      promise_state w (c_start c) = Some (Pending []) /\
      Failed ∈ sts /\
      active (vars w) = c_active c
  | Refused e =>
      promise_state w (c_all c) = Some (Rejected e) /\
      promise_state w (c_start c) = Some (Pending []) /\
      Failed ∈ sts /\
      active (vars w) = c_active c
  end.

(** What the status of element [i] says of its promise. *)
Definition status_inv (c : Call) (qs : list (nat * (Val + Val))) (w : World)
    (i : nat) (s : Status) : Prop :=
  match s with
  | Waiting =>
      promise_state w (c_sub c i) = Some (Pending [elem_reaction c i]) /\
      promise_state w (c_elem c i) = Some (Pending [])
  | Queued =>
      (exists r, (i, r) ∈ qs /\ promise_state w (c_sub c i) = Some (settled r)) /\
      promise_state w (c_elem c i) = Some (Pending [])
  | Counted => exists v, promise_state w (c_sub c i) = Some (Fulfilled v)
  | Failed => exists e, promise_state w (c_sub c i) = Some (Rejected e)
  end.

(** A callback of this call: one of an initial subscription. *)
Definition own_callback (c : Call) (cb : Callback) : Prop :=
  c_first c <= cb_promise cb /\ cb_promise cb < c_first c + c_count c.

(** The invariant of the asynchronous part: [pre] are jobs queued before it
    began, [sts] the status of each initial subscription, [qs] the settled
    ones whose job is queued, in order, [ph] the phase of the chain. *)
Record CallInv (c : Call) (pre : list Job) (sts : list Status)
    (qs : list (nat * (Val + Val))) (ph : Phase) (w : World) : Prop := {
  inv_start : c_start c < c_first c;
  inv_len : length sts = c_count c;
  inv_bus : is_Some (accPack (vars w));
  inv_queue : queue (runtime w) = pre ++ map (elem_job c) qs ++ tail_jobs c ph;
  inv_nodup : NoDup qs.*1;
  inv_queued : forall i, sts !! i = Some Queued <-> i ∈ qs.*1;
  inv_status : forall i s, sts !! i = Some s -> status_inv c qs w i s;
  inv_all : exists vals,
    alls (runtime w) !! c_all c =
      Some {| all_values := vals; all_remaining := uncounted sts |};
  inv_pending : forall j cb,
    pending (runtime w) !! j = Some cb -> own_callback c cb ->
    exists i type subscriber,
      cb = CbSubscribe (c_sub c i) type subscriber /\ sts !! i = Some Waiting;
  inv_pending_inj : forall j j' cb cb',
    pending (runtime w) !! j = Some cb -> pending (runtime w) !! j' = Some cb' ->
    own_callback c cb -> cb_promise cb = cb_promise cb' -> j = j';
  inv_trace : exists new,
    trace w = new ++ c_trace c /\
    List.filter is_startCall_event new = phase_events ph /\
    List.filter is_failure_message new = phase_messages ph;
  inv_phase : phase_inv c ph sts w
}.

(** The steps of the asynchronous part: a microtask, or, the queue empty,
    the answer of the SDK to one of the initial subscriptions. *)
Inductive call_step (c : Call) : World -> World -> Prop :=
| step_microtask w :
    queue (runtime w) <> [] -> call_step c w (microtask w)
| step_callback w j cb error :
    queue (runtime w) = [] ->
    pending (runtime w) !! j = Some cb ->
    own_callback c cb ->
    call_step c w (fire j error w).

(** Jobs of the chain that are queued or can still be. *)
Definition potential (ph : Phase) : nat :=
  match ph with
  | Open | Resolved _ | Refusing _ => 2
  | Starting _ | Catching _ => 1
  | Started _ | Refused _ => 0
  end.

Definition all_fulfilled (c : Call) (w : World) : Prop :=
  forall i, i < c_count c ->
    exists v, promise_state w (c_sub c i) = Some (Fulfilled v).


(** ** The state [startCall] sets up *)

(** A promise as [subscribe] returns it: pending with nobody waiting, or
    settled. *)
Definition fresh_state (o : option PromiseState) : Prop :=
  match o with
  | Some (Pending rs) => rs = []
  | Some _ => True
  | None => False
  end.

Definition settled_result (o : option PromiseState) : option (Val + Val) :=
  match o with
  | Some (Fulfilled v) => Some (inl v)
  | Some (Rejected e) => Some (inr e)
  | _ => None
  end.

(** The elements [idx], ..., [idx + k - 1] that are settled when
    [Promise.all] visits them, with their results. *)
Definition presettled (c : Call) (h : gmap nat PromiseState) (idx k : nat)
    : list (nat * (Val + Val)) :=
  omap (fun i => (fun r => (i, r)) <$> settled_result (h !! c_sub c i))
       (seq idx k).

(** [then] on a pending promise adds the reaction of element [i]. *)
Definition attach (c : Call) (i : nat) (o : option PromiseState)
    : option PromiseState :=
  match o with
  | Some (Pending rs) => Some (Pending (rs ++ [elem_reaction c i]))
  | other => other
  end.

Definition initial_status (o : option PromiseState) : Status :=
  match o with
  | Some (Pending _) => Waiting
  | _ => Queued
  end.

(** What [subscribe] adds to the trace is neither the ['startCall'] event
    nor the failure message. *)
Definition quiet_events (new : list Event) : Prop :=
  List.filter is_startCall_event new = [] /\
  List.filter is_failure_message new = [].

(** The callbacks the SDK holds belong to promises that exist. *)
Definition callbacks_known (w : World) : Prop :=
  Forall (fun cb => cb_promise cb < next (runtime w)) (pending (runtime w)).

Definition subscribe_entry (e : string * Stream) : M nat := subscribe e.2.

(** What the [n] initial calls of [subscribe] make of the world [w]. *)
Definition subscribed_all (n : nat) (w w' : World) : Prop :=
  next (runtime w') = next (runtime w) + n /\
  vars w' = vars w /\ store w' = store w /\
  alls (runtime w') = alls (runtime w) /\
  queue (runtime w') = queue (runtime w) /\
  (forall k, k < next (runtime w) ->
     heap (runtime w') !! k = heap (runtime w) !! k) /\
  (forall i, i < n -> fresh_state (heap (runtime w') !! (next (runtime w) + i))) /\
  (exists cbs,
     pending (runtime w') = pending (runtime w) ++ cbs /\
     Forall (fun cb => exists i type sub,
               i < n /\ cb = CbSubscribe (next (runtime w) + i) type sub /\
               heap (runtime w') !! (next (runtime w) + i) = Some (Pending []))
            cbs /\
     NoDup (cb_promise <$> cbs)) /\
  exists new, trace w' = new ++ trace w /\ quiet_events new.

(** The heap once [Promise.all] has visited the elements [idx], ...,
    [idx + k - 1]: a reaction attached to each pending element, and the
    promises its [then]s derive. *)
Definition visited_heap (c : Call) (idx k : nat) (h : gmap nat PromiseState)
    (p : nat) : option PromiseState :=
  if decide (c_sub c idx <= p < c_sub c (idx + k))
  then attach c (p - c_first c) (h !! p)
  else if decide (c_elem c idx <= p < c_elem c (idx + k))
       then Some (Pending [])
       else h !! p.

Arguments presettled : simpl never.
Arguments visited_heap : simpl never.

(** The statuses when [Promise.all] has visited every element, from the
    heap [h] it found. *)
Definition initial_statuses (c : Call) (h : gmap nat PromiseState)
    : list Status :=
  (fun i => initial_status (h !! c_sub c i)) <$> seq 0 (c_count c).

Definition initial_phase (c : Call) : Phase :=
  match c_count c with
  | 0 => Resolved (VArray [])
  | S _ => Open
  end.

(** The call whose then-handler runs in the world [w]. *)
Definition call_of (pStart : nat) (tr : list Event) (w : World) : Call :=
  {| c_start := pStart;
     c_first := next (runtime w);
     c_count := length (map_to_list (streams (store w)));
     c_trace := tr;
     c_active := active (vars w) |}.

(** ** What the caller and the application observe of a call *)


(** The promise of [startCall] is fulfilled with the state of the
    publishers and subscribers, the flag is set and the ['startCall'] event
    has been emitted, once, with that state. *)
Definition call_started (c : Call) (w : World) : Prop :=
  let d := VPubSub (pubSub_of (store w)) in
  promise_state w (c_start c) = Some (Fulfilled d) /\
  active (vars w) = true /\
  exists new, trace w = new ++ c_trace c /\
              List.filter is_startCall_event new = [TriggerEvent "startCall" d] /\
              List.filter is_failure_message new = [].



Definition CallState (c : Call) (w : World) : Prop :=
  exists sts qs ph, CallInv c [] sts qs ph w.

(** The call [startCall] begins in the world [w], and the world once the
    SDK has created the publisher and the jobs of [publish] have run. *)
Definition started_call (w : World) : Call :=
  {| c_start := next (runtime w);
     c_first := 6 + next (runtime w);
     c_count := length (map_to_list (streams (store w)));
     c_trace := trace w;
     c_active := active (vars w) |}.

Definition published (w : World) : World :=
  microtask (microtask (microtask
    (fire (length (pending (runtime w))) None (exec startCall w)))).

(** ** A call with one remote camera stream *)

Definition call_example : World :=
  with_stream (camera_stream "a") (initialised all_options).

Definition subscription_error : Error :=
  {| code := Some 1500%Z; message := "Unable to subscribe" |}.


(** The SDK completes the only initial subscription; the queue is drained. *)
Definition succeeding_call : World :=
  drain 10 (fire 0 None (published call_example)).

(** ** Worlds for the other examples *)

(** A limit of one connection, and one camera stream in the registry. *)
Definition limited_world : World :=
  with_stream (camera_stream "a") (initialised (options_with_limit 1)).

Definition network_error : Error :=
  {| code := Some 1010%Z; message := "OT_TIMEOUT" |}.

(** A screen stream in the registry of an initialised module. *)
Definition screen_world : World :=
  with_stream (screen_stream "s") (initialised all_options).

(** ** Streams and worlds for further examples *)

(** A stream whose connection data is not JSON. *)
Definition malformed_stream : Stream :=
  {| stream_id := "m"; videoType := camera; connection_data := BadData "{" |}.

(** Calls of [accPack.on] recorded in a trace. *)
Definition listener_registrations (tr : list Event) : nat :=
  length (List.filter (fun e => match e with
                                | AccPackOn _ _ => true
                                | _ => false
                                end) tr).

(** An initialised module with no remote stream. *)
Definition quiet_world : World := initialised all_options.

(** A call is active. *)
Definition active_world : World := upd_vars (set_active true) quiet_world.

(** The options of [all_options] with other registries. *)
Definition other_registries : Options :=
  {| o_session := Some 1; o_publishers := Some 12; o_subscribers := Some 13;
     o_streams := Some 14; o_accPack := Some 5; o_streamContainers := Some 6;
     o_callProperties := None; o_screenProperties := None;
     o_connectionLimit := None; o_autoSubscribe := None |}.

Definition options_without_session : Options :=
  {| o_session := None; o_publishers := Some 2; o_subscribers := Some 3;
     o_streams := Some 4; o_accPack := Some 5; o_streamContainers := Some 6;
     o_callProperties := None; o_screenProperties := None;
     o_connectionLimit := None; o_autoSubscribe := None |}.


(** A camera stream whose connection data is the JSON text [[1]]. *)
Definition data_stream : Stream :=
  {| stream_id := "d"; videoType := camera; connection_data := JsonData "[1]" |}.

(** * Symbolic execution *)

#[local] Arguments reverse : simpl never.

Lemma camera_is_camera : bool_decide (camera = camera) = true.
Proof. reflexivity. Qed.

Lemma screen_is_screen : bool_decide (screen = screen) = true.
Proof. reflexivity. Qed.

Lemma camera_not_screen : bool_decide (camera = screen) = false.
Proof. reflexivity. Qed.

Lemma screen_not_camera : bool_decide (screen = camera) = false.
Proof. reflexivity. Qed.

(** Promise ids differ. *)
Ltac ids := unfold c_sub, c_all, c_elem, c_then, c_catch in *; lia.

Ltac heap_simpl :=
  repeat first [ rewrite lookup_insert_eq
               | rewrite lookup_insert_ne by ids
               | rewrite insert_insert_eq
               | rewrite camera_is_camera
               | rewrite screen_is_screen
               | rewrite camera_not_screen
               | rewrite screen_not_camera ].

Ltac run := repeat (progress (cbn; heap_simpl)).

Ltac heap_simpl_in H :=
  repeat first [ rewrite lookup_insert_eq in H
               | rewrite lookup_insert_ne in H by ids
               | rewrite insert_insert_eq in H
               | rewrite camera_is_camera in H
               | rewrite screen_is_screen in H
               | rewrite camera_not_screen in H
               | rewrite screen_not_camera in H ].

Ltac run_in H := repeat (progress (cbn in H; heap_simpl_in H)).

(** Evaluate the term [t] of the goal once: [unfolding] prepares the
    equation that names it, then it is run and substituted back. *)
Tactic Notation "evaluate" constr(t) "by" tactic3(unfolding) :=
  let x := fresh "x" in
  let E := fresh "E" in
  remember t as x eqn:E;
  unfolding E;
  run_in E;
  subst x.

(** Projections of explicit records, and nothing else. *)
Ltac proj_simpl :=
  cbn [vars store trace handles runtime heap next alls queue pending
       session accPack callProperties screenProperties streamContainers
       autoSubscribe connectionLimit active fst snd] in *.

Ltac destruct_world w :=
  let v := fresh "v" in let r := fresh "r" in
  destruct w as [v ? ? ? r]; destruct v, r; proj_simpl.

(** The same, rewriting with what is known of the world as it goes. *)
Ltac eval_with t unfolding rew :=
  let x := fresh "x" in
  let E := fresh "E" in
  remember t as x eqn:E;
  unfolding E;
  repeat (progress (cbn in E; heap_simpl_in E; rew E));
  subst x.

(** * The connection limit *)


Lemma ableToJoin_pure w : exists b, ableToJoin w = (Ok b, w).
Proof.
  unfold ableToJoin; simpl.
  destruct (connectionLimit (vars w)) as [[| |]|]; simpl; eauto.
Qed.

Lemma ableToJoin_true w :
  ableToJoin w = (Ok true, w) <->
  match connectionLimit (vars w) with
  | None | Some 0%Z => True
  | Some N => (Z.of_nat (length (cameraStreams w)) < N)%Z
  end.
Proof.
  unfold ableToJoin, cameraStreams; simpl.
  destruct (connectionLimit (vars w)) as [[|N|N]|]; simpl; try tauto.
  - rewrite <- Z.ltb_lt.
    destruct (_ <? _)%Z; split; congruence.
  - rewrite <- Z.ltb_lt.
    destruct (_ <? _)%Z; split; congruence.
Qed.

Lemma ableToJoin_false w N :
  connectionLimit (vars w) = Some N -> N <> 0%Z ->
  (N <= Z.of_nat (length (cameraStreams w)))%Z ->
  ableToJoin w = (Ok false, w).
Proof.
  intros HN H0 Hle. unfold ableToJoin, cameraStreams in *; simpl.
  rewrite HN. apply Z.ltb_ge in Hle.
  destruct N; [done| |]; simpl; rewrite Hle; done.
Qed.

(** C2. With a connection limit N (a limit is a non-zero number: [init]
    stores zero as no limit) and at least N camera streams in the stream
    registry, [startCall] logs the attempt, emits the ['error'] event with
    'Session has reached its connection limit', logs the failure and rejects
    its promise with that error; it calls nothing else (no publisher is
    created or published), leaves the store and the callbacks held by the SDK
    as they were, and queues no job.  With fewer camera streams than N, or
    with no limit, the check passes. *)
Theorem startCall_connection_limit w bus N :
  accPack (vars w) = Some bus ->
  connectionLimit (vars w) = Some N -> N <> 0%Z ->
  let p := next (runtime w) in
  let w' := exec startCall w in
  ((N <= Z.of_nat (length (cameraStreams w)))%Z ->
     (startCall w).1 = Ok p /\
     promise_state w' p = Some (Rejected limitError) /\
     trace w' = Log la_startCall fail
                :: TriggerEvent "error" (VString limitMessage)
                :: Log la_startCall attempt :: trace w /\
     store w' = store w /\
     pending (runtime w') = pending (runtime w) /\
     queue (runtime w') = queue (runtime w) /\
     handles w' = handles w /\
     vars w' = vars w) /\
  ((Z.of_nat (length (cameraStreams w)) < N)%Z ->
     ableToJoin w = (Ok true, w)) /\
  (forall w0, connectionLimit (vars w0) = None -> ableToJoin w0 = (Ok true, w0)).
Proof.
  intros Hbus HN H0 p w'. split; [|split].
  - intros Hle. subst p w'.
    unfold startCall. autounfold with comm. cbn.
    pose proof (ableToJoin_false _ _ HN H0 Hle) as Hable.
    destruct_world w; subst.
    match goal with |- context [ableToJoin ?x] =>
      replace (ableToJoin x) with (@Ok bool false, x) end.
    2:{ symmetry. apply ableToJoin_false with (N := N); simpl; auto. }
    cbn. rewrite lookup_insert_eq. cbn.
    repeat split; try done.
    + by rewrite lookup_insert_eq.
    + by rewrite app_nil_r.
  - intros Hlt. apply ableToJoin_true. rewrite HN. destruct N; done.
  - intros w0 H. apply ableToJoin_true. by rewrite H.
Qed.

Lemma validateOptions_eq options w :
  validateOptions options w =
  (Ok tt, upd_vars (fun v => configured options (active v))
            (upd_trace (fun t => required_errors options ++ t) w)).
Proof.
  unfold validateOptions, required_errors, configured. autounfold with comm.
  destruct w as [v st tr hd rt].
  destruct (o_session options), (o_publishers options), (o_subscribers options),
    (o_streams options), (o_accPack options); reflexivity.
Qed.

Lemma subscribe_eq stream w :
  subscribe stream w = (Ok (next (runtime w)), after_subscribe stream w).
Proof.
  unfold subscribe, after_subscribe, subscribe_outcome, with_promise.
  autounfold with comm.
  destruct w as [[ses ap cp sp sc au cl ac] st tr hd [h n al q pd]]; cbn.
  destruct (streamMap st !! stream_id stream) eqn:Hm; cbn.
  - rewrite lookup_insert_eq; cbn. rewrite insert_insert_eq, app_nil_r. done.
  - destruct (connection_data stream) eqn:Hd, sc, ses; cbn;
      rewrite ?lookup_insert_eq; cbn; rewrite ?insert_insert_eq, ?app_nil_r; try done.
Qed.

Lemma init_vars options w :
  vars (exec (init options) w) = configured options (active (vars w)).
Proof.
  unfold init, createEventListeners. autounfold with comm. cbn.
  rewrite validateOptions_eq. destruct_world w. cbn.
  unfold configured at 1; cbn.
  destruct (o_accPack options) eqn:E; run; unfold configured; by rewrite E.
Qed.

(** C10. A connection limit of zero is no limit: whenever the module
    variables are those [init] leaves for options whose [connectionLimit]
    is 0 (or is absent), the stored limit is null, [ableToJoin] returns
    true whatever the stream registry holds, and [startCall] returns a
    promise it does not reject and emits no event (no ['error'] event for
    the connection limit). *)
Theorem zero_limit_is_no_limit options w0 w :
  o_connectionLimit options = Some 0%Z \/ o_connectionLimit options = None ->
  vars w = vars (exec (init options) w0) ->
  connectionLimit (vars w) = None /\
  ableToJoin w = (Ok true, w) /\
  (startCall w).1 = Ok (next (runtime w)) /\
  promise_state (exec startCall w) (next (runtime w)) = Some (Pending []) /\
  exists new, trace (exec startCall w) = new ++ trace w /\
              List.filter is_trigger new = [].
Proof.
  intros Hzero Hvars.
  assert (Hlim : connectionLimit (vars w) = None).
  { rewrite Hvars, init_vars. simpl. by destruct Hzero as [-> | ->]. }
  assert (Hable : ableToJoin w = (Ok true, w)).
  { apply ableToJoin_true. by rewrite Hlim. }
  split; [done|]. split; [done|].
  unfold startCall. autounfold with comm. cbn.
  match goal with |- context [ableToJoin ?x] =>
    replace (ableToJoin x) with (@Ok bool true, x)
      by (symmetry; apply ableToJoin_true; simpl; by rewrite Hlim) end.
  cbn. unfold publish, createPublisher. autounfold with comm. cbn.
  destruct (streamContainers (vars w)); run.
  - split; [done|]. split; [done|].
    eexists [_; _]. split; [reflexivity|]. done.
  - split; [done|]. split; [done|].
    eexists [_]. split; [reflexivity|]. done.
Qed.

Lemma required_error_elem name given e :
  e ∈ required_error name given <->
  given = false /\ e = LogError (name +:+ " is a required option.").
Proof.
  unfold required_error. destruct given.
  - rewrite elem_of_nil. naive_solver.
  - rewrite elem_of_cons, elem_of_nil. naive_solver.
Qed.

(** C8 (amended). For options that carry the event bus [accPack], [init]
    logs an error for each of session, publishers, subscribers and streams
    that is missing, and for nothing else, assigns the configuration from
    the fields present, registers the [streamCreated] and [streamDestroyed]
    listeners and resolves its promise.  For options without [accPack],
    [init] logs the errors for the missing fields, that for [accPack]
    among them, and assigns the configuration, then [accPack.on] throws in
    the executor: the promise is rejected with the TypeError and no listener
    is registered. *)
Theorem init_fails_open options w :
  (forall bus, o_accPack options = Some bus ->
     let p := next (runtime w) in
     let w' := exec (init options) w in
     (init options w).1 = Ok p /\
     promise_state w' p = Some (Fulfilled VUndefined) /\
     vars w' = configured options (active (vars w)) /\
     trace w' = AccPackOn "streamDestroyed" l_onStreamDestroyed
                :: AccPackOn "streamCreated" l_onStreamCreated
                :: required_errors options ++ trace w /\
     (LogError "session is a required option." ∈ required_errors options
        <-> o_session options = None) /\
     (LogError "publishers is a required option." ∈ required_errors options
        <-> o_publishers options = None) /\
     (LogError "subscribers is a required option." ∈ required_errors options
        <-> o_subscribers options = None) /\
     (LogError "streams is a required option." ∈ required_errors options
        <-> o_streams options = None)) /\
  (o_accPack options = None ->
     let p := next (runtime w) in
     let w' := exec (init options) w in
     (init options w).1 = Ok p /\
     (exists msg, promise_state w' p = Some (Rejected (TypeError msg))) /\
     vars w' = configured options (active (vars w)) /\
     trace w' = required_errors options ++ trace w /\
     listener_registrations (trace w') = listener_registrations (trace w) /\
     LogError "accPack is a required option." ∈ required_errors options /\
     (LogError "session is a required option." ∈ required_errors options
        <-> o_session options = None) /\
     (LogError "publishers is a required option." ∈ required_errors options
        <-> o_publishers options = None) /\
     (LogError "subscribers is a required option." ∈ required_errors options
        <-> o_subscribers options = None) /\
     (LogError "streams is a required option." ∈ required_errors options
        <-> o_streams options = None)).
Proof.
  assert (Hmissing :
    (LogError "session is a required option." ∈ required_errors options
       <-> o_session options = None) /\
    (LogError "publishers is a required option." ∈ required_errors options
       <-> o_publishers options = None) /\
    (LogError "subscribers is a required option." ∈ required_errors options
       <-> o_subscribers options = None) /\
    (LogError "streams is a required option." ∈ required_errors options
       <-> o_streams options = None)).
  { unfold required_errors. rewrite !elem_of_app, !required_error_elem.
    unfold present.
    destruct (o_session options), (o_publishers options),
      (o_subscribers options), (o_streams options); cbn; naive_solver. }
  split.
  - intros bus Hbus p w'. subst p w'.
    split; [|split; [|split; [apply init_vars|split; [|exact Hmissing]]]].
    + unfold init, createEventListeners. autounfold with comm. cbn.
      rewrite validateOptions_eq. run. unfold configured at 1. rewrite Hbus. run. done.
    + unfold init, createEventListeners. autounfold with comm. cbn.
      rewrite validateOptions_eq. run. unfold configured at 1. rewrite Hbus. run. done.
    + unfold init, createEventListeners. autounfold with comm. cbn.
      rewrite validateOptions_eq. run. unfold configured at 1. rewrite Hbus. run. done.
  - intros Hbus p w'. subst p w'.
    assert (Htrace : trace (exec (init options) w) = required_errors options ++ trace w).
    { unfold init, createEventListeners. autounfold with comm. cbn.
      rewrite validateOptions_eq. run. unfold configured at 1. rewrite Hbus. run. done. }
    split; [|split; [|split; [apply init_vars|split; [exact Htrace|split; [|split]]]]].
    + unfold init, createEventListeners. autounfold with comm. cbn.
      rewrite validateOptions_eq. run. unfold configured at 1. rewrite Hbus. run. done.
    + unfold init, createEventListeners. autounfold with comm. cbn.
      rewrite validateOptions_eq. run. unfold configured at 1. rewrite Hbus. run.
      by eexists.
    + rewrite Htrace. unfold listener_registrations, required_errors, required_error.
      rewrite !List.filter_app, !length_app.
      by destruct (present _), (present _), (present _), (present _), (present _).
    + unfold required_errors. rewrite !elem_of_app, !required_error_elem.
      left. by rewrite Hbus.
    + exact Hmissing.
Qed.

(** C8 as stated fails: without [accPack], [init] logs the missing option,
    then [accPack.on] throws inside the executor, so the promise of [init]
    is rejected with the TypeError and no listener is registered. *)
Lemma init_without_accPack_rejects :
  let w' := exec (init options_without_accPack) loaded in
  promise_state w' 0 = Some (Rejected (TypeError "accPack is undefined")) /\
  trace w' = [LogError "accPack is a required option."].
Proof. vm_compute. done. Qed.

Lemma forEach_unpublish l w ses :
  session (vars w) = Some ses ->
  forEach session_unpublish l w =
  (Ok tt, upd_trace (fun t => reverse (SessionUnpublish <$> l) ++ t) w).
Proof.
  revert w. induction l as [|p l IH]; intros w Hs.
  - by destruct w.
  - cbn. unfold session_unpublish at 1. cbn. rewrite Hs. cbn.
    rewrite IH by done. cbn -[reverse]. by rewrite reverse_cons, <- app_assoc.
Qed.



(** C6. On a [streamDestroyed] event the stream is removed from the stream
    registry and ['unsubscribeFrom<Type>'] is emitted with the state of the
    publishers and subscribers after the removal; for a screen stream
    ['endViewingSharedScreen'] is emitted first, so both events are
    emitted. *)
Theorem streamDestroyed_events w bus stream :
  accPack (vars w) = Some bus ->
  let w' := exec (onStreamDestroyed stream) w in
  (onStreamDestroyed stream w).1 = Ok tt /\
  streams (store w') = delete (stream_id stream) (streams (store w)) /\
  streams (store w') !! stream_id stream = None /\
  trace w' =
    match videoType stream with
    | screen =>
        [TriggerEvent "unsubscribeFromScreen" (VPubSub (pubSub_of (store w')));
         TriggerEvent "endViewingSharedScreen" VUndefined]
    | camera =>
        [TriggerEvent "unsubscribeFromCamera" (VPubSub (pubSub_of (store w')))]
    end ++ trace w.
Proof.
  intros Hbus w'. subst w'. destruct_world w. subst.
  unfold onStreamDestroyed. autounfold with comm.
  destruct (videoType stream) eqn:Ht; run; rewrite lookup_delete_eq; done.
Qed.

Lemma subscribe_calls_after_subscribe stream w :
  subscribe_calls (trace (after_subscribe stream w)) = S (subscribe_calls (trace w)).
Proof.
  unfold after_subscribe, with_promise.
  destruct (subscribe_outcome stream w); reflexivity.
Qed.

(** C7. A [streamCreated] event calls [subscribe], once, exactly when the
    active flag and the auto-subscribe flag are both true; otherwise it
    changes nothing: no subscribe with auto-subscribe off while active, and
    none while no call is active. *)
Theorem streamCreated_subscribes w stream :
  let w' := exec (onStreamCreated stream) w in
  (onStreamCreated stream w).1 = Ok tt /\
  if active (vars w) && autoSubscribe (vars w)
  then w' = exec (subscribe stream) w /\
       subscribe_calls (trace w') = S (subscribe_calls (trace w))
  else w' = w.
Proof.
  unfold onStreamCreated. cbn.
  destruct (active (vars w) && autoSubscribe (vars w)); cbn.
  - rewrite !subscribe_eq. cbn. split; [done|]. split; [done|].
    apply subscribe_calls_after_subscribe.
  - done.
Qed.

Lemma drain_S fuel w :
  drain (S fuel) w =
  match queue (runtime w) with [] => w | _ => drain fuel (microtask w) end.
Proof. reflexivity. Qed.

Lemma drain_empty fuel w : queue (runtime w) = [] -> drain fuel w = w.
Proof. intros H. destruct fuel; [done|]. by rewrite drain_S, H. Qed.

Lemma drain_step fuel w j q :
  queue (runtime w) = j :: q -> drain (S fuel) w = drain fuel (microtask w).
Proof. intros H. by rewrite drain_S, H. Qed.

Lemma fire_last cb error w pd :
  pending (runtime w) = pd ++ [cb] ->
  fire (length pd) error w =
  exec (run_callback cb error) (upd_runtime (upd_pending (fun _ => pd)) w).
Proof.
  intros H. unfold fire. rewrite H, list_lookup_middle by done.
  destruct w as [v st tr hd [h n al q pd']]. cbn in *. subst.
  by rewrite delete_middle, app_nil_r.
Qed.

(** C5. When the SDK reports that creating the publisher failed with the
    error [e], [publish] logs the failure, emits the ['error'] event with
    'Check your network connection' if the code of [e] is 1010 and with the
    message of [e] otherwise, and rejects its promise with [e] itself. *)
Theorem publish_failure w bus fn e fuel :
  accPack (vars w) = Some bus ->
  streamContainers (vars w) = Some fn ->
  queue (runtime w) = [] ->
  2 <= fuel ->
  let pPublish := next (runtime w) in
  let w1 := exec publish w in
  let w2 := drain fuel (fire (length (pending (runtime w))) (Some e) w1) in
  (publish w).1 = Ok pPublish /\
  pending (runtime w1) =
    pending (runtime w)
    ++ [CbInitPublisher (S pPublish) {| publisher_id := handles w |}] /\
  promise_state w2 pPublish = Some (Rejected (VError e)) /\
  trace w2 = TriggerEvent "error" (VString (publish_error_message e))
             :: Log la_startCall fail :: trace w1 /\
  queue (runtime w2) = [] /\
  pending (runtime w2) = pending (runtime w).
Proof.
  intros Hbus Hfn Hq Hfuel.
  destruct fuel as [|[|fuel]]; [lia|lia|].
  destruct_world w. subst.
  unfold exec.
  match goal with |- context [publish ?w] =>
    evaluate (publish w) by
      (fun E => unfold publish, createPublisher in E; autounfold with comm in E) end.
  proj_simpl.
  split; [done|]. split; [done|].
  erewrite fire_last by (cbn; reflexivity).
  match goal with |- context [exec (run_callback ?a ?b) ?w] =>
    evaluate (exec (run_callback a b) w) by
      (fun E => unfold exec, run_callback, initPublisher_callback in E;
                autounfold with comm in E) end.
  erewrite drain_step by (cbn; reflexivity).
  match goal with |- context [microtask ?w] =>
    evaluate (microtask w) by
      (fun E => unfold microtask, run_job in E; cbn in E;
                autounfold with comm in E) end.
  erewrite drain_step by (cbn; reflexivity).
  match goal with |- context [microtask ?w] =>
    evaluate (microtask w) by
      (fun E => unfold microtask, run_job in E; cbn in E;
                unfold publish_catch in E;
                autounfold with comm in E) end.
  rewrite drain_empty by done. unfold promise_state, publish_error_message.
  proj_simpl. heap_simpl.
  repeat split; try done.
  by destruct (bool_decide _).
Qed.

(** C3. [subscribe] on a stream whose id is in the stream map resolves at
    once: it logs the attempt and does nothing else (no SDK call, no change
    of the store, no event).  Hence subscribing again once the first
    subscription has completed makes no second SDK call, and both promises
    are fulfilled. *)
Theorem subscribe_idempotent :
  (forall w stream sid,
     streamMap (store w) !! stream_id stream = Some sid ->
     let p := next (runtime w) in
     let w' := exec (subscribe stream) w in
     (subscribe stream w).1 = Ok p /\
     promise_state w' p = Some (Fulfilled VUndefined) /\
     trace w' = Log la_subscribe attempt :: trace w /\
     store w' = store w /\
     vars w' = vars w /\
     handles w' = handles w /\
     pending (runtime w') = pending (runtime w) /\
     queue (runtime w') = queue (runtime w)) /\
  (forall w stream ses bus fn,
     session (vars w) = Some ses ->
     accPack (vars w) = Some bus ->
     streamContainers (vars w) = Some fn ->
     (forall text, connection_data stream <> BadData text) ->
     streamMap (store w) !! stream_id stream = None ->
     let p1 := next (runtime w) in
     let w1 := exec (subscribe stream) w in
     let w2 := fire (length (pending (runtime w))) None w1 in
     let p2 := next (runtime w2) in
     let w3 := exec (subscribe stream) w2 in
     sdk_subscribe_calls (trace w1) = S (sdk_subscribe_calls (trace w)) /\
     is_Some (streamMap (store w2) !! stream_id stream) /\
     sdk_subscribe_calls (trace w3) = S (sdk_subscribe_calls (trace w)) /\
     promise_state w3 p1 = Some (Fulfilled VUndefined) /\
     promise_state w3 p2 = Some (Fulfilled VUndefined) /\
     queue (runtime w3) = queue (runtime w)).
Proof.
  split.
  - intros w stream sid Hsid. cbn zeta. unfold exec.
    rewrite subscribe_eq. unfold after_subscribe, subscribe_outcome.
    rewrite Hsid. destruct_world w. unfold promise_state, with_promise. cbn.
    rewrite lookup_insert_eq. done.
  - intros w stream ses bus fn Hses Hbus Hfn Hdata Hfresh. cbn zeta. unfold exec.
    rewrite !subscribe_eq. 
    assert (Hout : exists c o, subscribe_outcome stream w = Asked c o).
    { unfold subscribe_outcome. rewrite Hfresh, Hfn, Hses.
      destruct (connection_data stream) eqn:Hd; eauto.
      by destruct (Hdata text). }
    destruct Hout as (c & o & Hout).
    remember (after_subscribe stream w) as w1 eqn:E1.
    unfold after_subscribe in E1. rewrite Hout in E1. clear Hout.
    destruct_world w. subst. unfold with_promise. cbn -[fire].
    split; [done|].
    erewrite fire_last by (cbn; reflexivity).
    destruct (videoType stream) eqn:Ht.
    all: match goal with |- context [exec (run_callback ?a ?b) ?w] =>
      evaluate (exec (run_callback a b) w) by
        (fun E => unfold exec, run_callback, subscribe_callback in E;
                  autounfold with comm in E) end.
    all: unfold after_subscribe, subscribe_outcome, promise_state, with_promise;
      cbn; rewrite lookup_insert_eq; cbn; heap_simpl; rewrite ?app_nil_r; done.
Qed.

(** * What a step of the module can settle *)

Section Keeps.
Variable p : nat.

Lemma abandoned_ext w w' :
  heap (runtime w') = heap (runtime w) ->
  next (runtime w') = next (runtime w) ->
  queue (runtime w') = queue (runtime w) ->
  pending (runtime w') = pending (runtime w) ->
  abandoned p w -> abandoned p w'.
Proof.
  unfold abandoned, unreferenced, promise_state. by intros -> -> -> ->.
Qed.

Lemma keeps_ret {A} (a : A) (post : A -> Prop) : post a -> keeps p (ret a) post.
Proof. intros Ha w Hw. cbn. split; [done|]. by intros ? [= <-]. Qed.

Lemma keeps_throw {A} e (post : A -> Prop) : keeps p (throw e) post.
Proof. intros w Hw. cbn. split; [done|]. done. Qed.

Lemma keeps_bind {A B} (m : M A) (k : A -> M B) Q R :
  keeps p m Q -> (forall a, Q a -> keeps p (k a) R) -> keeps p (bind m k) R.
Proof.
  intros Hm Hk w Hw. destruct (Hm w Hw) as [Hw' Hq]. cbn.
  destruct (m w) as [[a|e] w']; cbn in *.
  - by apply Hk; [apply Hq|].
  - done.
Qed.

Lemma keeps_try_catch {A} (m : M A) h Q :
  keeps p m Q -> (forall e, keeps p (h e) Q) -> keeps p (try_catch m h) Q.
Proof.
  intros Hm Hh w Hw. destruct (Hm w Hw) as [Hw' Hq]. cbn.
  destruct (m w) as [[a|e] w']; cbn in *.
  - done.
  - by apply Hh.
Qed.

Lemma keeps_weaken {A} (m : M A) (Q R : A -> Prop) :
  keeps p m Q -> (forall a, Q a -> R a) -> keeps p m R.
Proof.
  intros Hm HQR w Hw. destruct (Hm w Hw) as [H1 H2].
  split; [done|]. intros a Ha. by apply HQR, H2.
Qed.

Lemma keeps_gets {A} (f : World -> A) : keeps p (gets f) (fun _ => True).
Proof. intros w Hw. cbn. by split. Qed.

Lemma keeps_modify f :
  (forall w, heap (runtime (f w)) = heap (runtime w) /\
             next (runtime (f w)) = next (runtime w) /\
             queue (runtime (f w)) = queue (runtime w) /\
             pending (runtime (f w)) = pending (runtime w)) ->
  keeps p (modify f) (fun _ => True).
Proof.
  intros Hf w Hw. cbn. split; [|done].
  destruct (Hf w) as (? & ? & ? & ?). by apply (abandoned_ext w).
Qed.

Lemma keeps_when b m : keeps p m (fun _ => True) -> keeps p (when b m) (fun _ => True).
Proof. destruct b; [done|]. intros _. by apply keeps_ret. Qed.

Lemma keeps_emit e : keeps p (emit e) (fun _ => True).
Proof. apply keeps_modify. by intros []. Qed.

Lemma keeps_defined {A} what (f : Vars -> option A) :
  keeps p (defined what f) (fun _ => True).
Proof. intros w Hw. cbn. by destruct (f (vars w)); cbn; split. Qed.

Lemma keeps_alloc : keeps p alloc (fun a => a <> p).
Proof.
  intros w (Hp & Hlt & Hh & Hq & Hc). unfold promise_state in *.
  destruct w as [v st tr hd [h n al q pd]].
  unfold abandoned, unreferenced, promise_state. cbn in *.
  split; [|intros a [= Ha]; lia].
  split; [|split; [lia|split; [|done]]].
  - rewrite lookup_insert_ne by lia. done.
  - intros q0 s r. destruct (decide (q0 = n)) as [->|Hne].
    + rewrite lookup_insert_eq. intros [= <-]. cbn. by rewrite elem_of_nil.
    + rewrite lookup_insert_ne by done. apply Hh.
Qed.

Lemma keeps_settle q s h v :
  q <> p ->
  (forall v, reactions_of (s v) = []) ->
  (forall r x, x ∈ kont_refs (h r) -> x ∈ reaction_refs r) ->
  keeps p (settle q s h v) (fun _ => True).
Proof.
  intros Hq Hs Hk w (Hp & Hlt & Hh & Hj & Hc). unfold promise_state in *.
  destruct w as [vs st tr hd [hp n al qu pd]].
  unfold settle, abandoned, unreferenced, promise_state. cbn in *.
  destruct (hp !! q) as [[rs| |]|] eqn:E; cbn; try done.
  split; [|done].
  split; [by rewrite lookup_insert_ne|]. split; [done|].
  split; [|split; [|done]].
  - intros q0 s0 r. destruct (decide (q0 = q)) as [->|Hne].
    + rewrite lookup_insert_eq. intros [= <-]. rewrite Hs. by rewrite elem_of_nil.
    + rewrite lookup_insert_ne by done. apply Hh.
  - intros j [Hin|Hin]%elem_of_app; [by apply Hj|].
    apply list_elem_of_fmap in Hin as (r & -> & Hr).
    unfold job_refs; cbn. intros Hbad.
    apply (Hh q (Pending rs) r E Hr).
    apply elem_of_cons in Hbad as [->|Hbad]; [apply elem_of_cons; by left|].
    by apply Hk.
Qed.

Lemma keeps_resolve q v : q <> p -> keeps p (resolve q v) (fun _ => True).
Proof.
  intros Hq. apply keeps_settle; [done|done|].
  intros r x Hx. unfold reaction_refs. rewrite elem_of_cons, elem_of_app. auto.
Qed.

Lemma keeps_reject q v : q <> p -> keeps p (reject q v) (fun _ => True).
Proof.
  intros Hq. apply keeps_settle; [done|done|].
  intros r x Hx. unfold reaction_refs. rewrite elem_of_cons, elem_of_app. auto.
Qed.

Lemma keeps_then q kf kr :
  q <> p -> p ∉ kont_refs kf -> p ∉ kont_refs kr ->
  keeps p (then_ q kf kr) (fun d => d <> p).
Proof.
  intros Hq Hkf Hkr. unfold then_.
  eapply keeps_bind; [apply keeps_alloc|]. intros d Hd.
  intros w (Hp & Hlt & Hh & Hj & Hc). unfold promise_state in *.
  destruct w as [vs st tr hd [hp n al qu pd]].
  unfold abandoned, unreferenced, promise_state. cbn in *.
  assert (Hnew : forall k, p ∉ kont_refs k -> p ∉ d :: kont_refs k).
  { intros k Hk [->|?]%elem_of_cons; done. }
  destruct (hp !! q) as [[rs| |]|] eqn:E; cbn;
    (split; [|by intros ? [= <-]]).
  - split; [by rewrite lookup_insert_ne|]. split; [done|].
    split; [|done].
    intros q0 s0 r. destruct (decide (q0 = q)) as [->|Hne].
    + rewrite lookup_insert_eq. intros [= <-]. cbn.
      intros [Hr|Hr]%elem_of_app; [by apply (Hh q (Pending rs))|].
      apply list_elem_of_singleton in Hr as ->. unfold reaction_refs; cbn.
      rewrite elem_of_cons, elem_of_app. naive_solver.
    + rewrite lookup_insert_ne by done. apply Hh.
  - repeat split; try done.
    intros j [Hin|Hin]%elem_of_app; [by apply Hj|].
    apply list_elem_of_singleton in Hin as ->. by apply Hnew.
  - repeat split; try done.
    intros j [Hin|Hin]%elem_of_app; [by apply Hj|].
    apply list_elem_of_singleton in Hin as ->. by apply Hnew.
  - done.
Qed.

Lemma keeps_new_Promise executor :
  (forall q, q <> p -> keeps p (executor q) (fun _ => True)) ->
  keeps p (new_Promise executor) (fun q => q <> p).
Proof.
  intros He. unfold new_Promise.
  eapply keeps_bind; [apply keeps_alloc|]. intros q Hq.
  eapply keeps_bind.
  - apply keeps_try_catch; [by apply He|]. intros e. by apply keeps_reject.
  - intros _ _. by apply keeps_ret.
Qed.

Lemma keeps_mapM {A B} (f : A -> M B) l Q :
  (forall a, keeps p (f a) Q) -> keeps p (mapM f l) (Forall Q).
Proof.
  intros Hf. induction l as [|a l IH]; cbn.
  - by apply keeps_ret.
  - eapply keeps_bind; [apply Hf|]. intros b Hb.
    eapply keeps_bind; [apply IH|]. intros bs Hbs.
    apply keeps_ret. by constructor.
Qed.

Lemma keeps_forEach {A} (f : A -> M unit) l :
  (forall a, keeps p (f a) (fun _ => True)) ->
  keeps p (forEach f l) (fun _ => True).
Proof.
  intros Hf. induction l as [|a l IH]; cbn.
  - by apply keeps_ret.
  - eapply keeps_bind; [apply Hf|]. by intros _ _.
Qed.

Ltac keeps_pure := first
  [ apply keeps_emit
  | apply keeps_gets
  | apply keeps_defined
  | apply keeps_modify; by intros []
  | exact (keeps_ret _ (fun _ => True) I)
  | by apply keeps_ret
  | apply keeps_throw ].

(** A chain of binds whose links return nothing the proof needs. *)
Ltac keeps_chain tac :=
  first [ keeps_pure
        | tac
        | eapply keeps_bind; [ keeps_chain tac | intros ? ?; keeps_chain tac ] ].

Lemma keeps_OT_initPublisher c props callback :
  (forall publisher, cb_promise (callback publisher) <> p) ->
  keeps p (OT_initPublisher c props callback) (fun _ => True).
Proof.
  intros Hcb w (Hp & Hlt & Hh & Hj & Hc). unfold promise_state in *.
  destruct w as [vs st tr hd [hp n al qu pd]].
  unfold abandoned, unreferenced, promise_state. cbn in *.
  repeat split; try done.
  intros cb [Hin|Hin]%elem_of_app; [by apply Hc|].
  apply list_elem_of_singleton in Hin as ->. apply Hcb.
Qed.

Lemma keeps_session_subscribe s c options callback :
  (forall subscriber, cb_promise (callback subscriber) <> p) ->
  keeps p (session_subscribe s c options callback) (fun _ => True).
Proof.
  intros Hcb w (Hp & Hlt & Hh & Hj & Hc). unfold promise_state in *.
  destruct w as [[ses ap cp sp sc au cl ac] st tr hd [hp n al qu pd]].
  unfold abandoned, unreferenced, promise_state. cbn in *.
  destruct ses; cbn; repeat split; try done.
  intros cb [Hin|Hin]%elem_of_app; [by apply Hc|].
  apply list_elem_of_singleton in Hin as ->. apply Hcb.
Qed.

Lemma keeps_triggerEvent event data :
  keeps p (triggerEvent event data) (fun _ => True).
Proof. unfold triggerEvent. keeps_chain fail. Qed.

Lemma keeps_createPublisher : keeps p createPublisher (fun q => q <> p).
Proof.
  unfold createPublisher. apply keeps_new_Promise. intros q Hq.
  unfold call_streamContainers.
  keeps_chain ltac:(by apply keeps_OT_initPublisher).
Qed.

Lemma keeps_publish : keeps p publish (fun q => q <> p).
Proof.
  unfold publish. apply keeps_new_Promise. intros q Hq.
  eapply keeps_bind; [apply keeps_createPublisher|]. intros pc Hpc.
  eapply keeps_bind.
  { apply keeps_then; [done| |]; cbn; set_solver. }
  intros pt Hpt.
  eapply keeps_bind.
  { apply keeps_then; [done| |]; cbn; set_solver. }
  intros _ _. by apply keeps_ret.
Qed.

Lemma keeps_subscribe stream : keeps p (subscribe stream) (fun q => q <> p).
Proof.
  unfold subscribe. apply keeps_new_Promise. intros q Hq.
  eapply keeps_bind; [keeps_pure|]. intros _ _.
  eapply keeps_bind; [keeps_pure|]. intros m _.
  destruct (m !! stream_id stream).
  - by apply keeps_resolve.
  - unfold JSON_parse_connection_data, call_streamContainers.
    destruct (connection_data stream);
      keeps_chain ltac:(by apply keeps_session_subscribe).
Qed.

Lemma keeps_set_all_state pAll a :
  keeps p (set_all_state pAll a) (fun _ => True).
Proof. apply keeps_modify. by intros [? ? ? ? []]. Qed.

Lemma keeps_all_state pAll : keeps p (all_state pAll) (fun _ => True).
Proof. unfold all_state. keeps_chain fail. Qed.

Lemma keeps_all_element_done pAll values :
  pAll <> p -> keeps p (all_element_done pAll values) (fun _ => True).
Proof.
  intros Hq. unfold all_element_done.
  eapply keeps_bind; [apply keeps_all_state|]. intros a _.
  eapply keeps_bind; [apply keeps_set_all_state|]. intros _ _.
  apply keeps_when. by apply keeps_resolve.
Qed.

Lemma keeps_all_visit pAll index promises :
  pAll <> p -> Forall (fun q => q <> p) promises ->
  keeps p (all_visit pAll index promises) (fun _ => True).
Proof.
  intros Hq Hqs. revert index.
  induction Hqs as [|q qs Hq' Hqs IH]; intros index; cbn.
  - by apply keeps_ret.
  - eapply keeps_bind; [apply keeps_all_state|]. intros a _.
    eapply keeps_bind; [apply keeps_set_all_state|]. intros _ _.
    eapply keeps_bind.
    { apply keeps_then; [done| |]; cbn; set_solver. }
    intros _ _. apply IH.
Qed.

Lemma keeps_Promise_all promises :
  Forall (fun q => q <> p) promises ->
  keeps p (Promise_all promises) (fun q => q <> p).
Proof.
  intros Hqs. unfold Promise_all.
  eapply keeps_bind; [apply keeps_alloc|]. intros pAll HpAll.
  eapply keeps_bind; [apply keeps_set_all_state|]. intros _ _.
  eapply keeps_bind; [by apply keeps_all_visit|]. intros _ _.
  eapply keeps_bind; [apply keeps_all_state|]. intros a _.
  eapply keeps_bind; [by apply keeps_all_element_done|]. intros _ _.
  by apply keeps_ret.
Qed.

Lemma keeps_run_kont k v :
  p ∉ kont_refs k -> keeps p (run_kont k v) (fun _ => True).
Proof.
  intros Hk. destruct k as [| |q|q|q|q| |q i|q]; cbn in *.
  - by apply keeps_ret.
  - apply keeps_throw.
  - assert (q <> p) by set_solver. unfold publish_then.
    destruct v; try apply keeps_throw.
    unfold state.addPublisher, session_publish, logging.log.
    keeps_chain ltac:(by apply keeps_resolve).
  - assert (q <> p) by set_solver. unfold publish_catch, logging.log.
    keeps_chain ltac:(first [apply keeps_triggerEvent | by apply keeps_reject]).
  - assert (q <> p) by set_solver. unfold startCall_then.
    eapply keeps_bind; [keeps_pure|]. intros streams _.
    eapply keeps_bind.
    { apply keeps_mapM. intros [id stream]. apply keeps_subscribe. }
    intros subs Hsubs.
    eapply keeps_bind; [by apply keeps_Promise_all|]. intros pAll HpAll.
    eapply keeps_bind.
    { apply keeps_then; [done| |]; cbn; set_solver. }
    intros pThen HpThen.
    eapply keeps_bind.
    { apply keeps_then; [done| |]; cbn; set_solver. }
    intros _ _. by apply keeps_ret.
  - assert (q <> p) by set_solver. unfold startCall_all_then, state.getPubSub.
    keeps_chain ltac:(first [apply keeps_triggerEvent | by apply keeps_resolve]).
  - unfold startCall_all_catch, logging.message. keeps_chain fail.
  - assert (q <> p) by set_solver.
    eapply keeps_bind; [apply keeps_all_state|]. intros a _.
    eapply keeps_bind; [by apply keeps_all_element_done|]. intros _ _.
    by apply keeps_ret.
  - assert (q <> p) by set_solver.
    keeps_chain ltac:(by apply keeps_reject).
Qed.

Lemma keeps_run_job j :
  p ∉ job_refs j -> keeps p (run_job j) (fun _ => True).
Proof.
  intros Hj. unfold run_job, job_refs in *.
  apply not_elem_of_cons in Hj as [Hd Hk].
  apply keeps_try_catch.
  - eapply keeps_bind; [by apply keeps_run_kont|]. intros v _.
    by apply keeps_resolve.
  - intros e. by apply keeps_reject.
Qed.

Lemma keeps_run_callback cb error :
  cb_promise cb <> p -> keeps p (run_callback cb error) (fun _ => True).
Proof.
  intros Hcb. destruct cb as [q pub | q type sub]; cbn in *.
  - unfold initPublisher_callback.
    destruct error; [by apply keeps_reject | by apply keeps_resolve].
  - unfold subscribe_callback, logging.log, state.addSubscriber, state.all.
    destruct error.
    + keeps_chain ltac:(by apply keeps_reject).
    + keeps_chain ltac:(first [ apply keeps_triggerEvent
                              | apply keeps_when; apply keeps_triggerEvent
                              | by apply keeps_resolve ]).
Qed.

Lemma keeps_startCall : keeps p startCall (fun q => q <> p).
Proof.
  unfold startCall. apply keeps_new_Promise. intros q Hq.
  eapply keeps_bind; [apply keeps_emit|]. intros _ _.
  eapply keeps_bind with (Q := fun _ => True).
  { intros w Hw. destruct (ableToJoin_pure w) as [b ->]. by cbn. }
  intros able _. destruct able; cbn.
  - eapply keeps_bind; [apply keeps_publish|]. intros pp Hpp.
    eapply keeps_bind.
    { apply keeps_then; [done| |]; cbn; set_solver. }
    intros _ _. by apply keeps_ret.
  - unfold logging.log.
    keeps_chain ltac:(first [apply keeps_triggerEvent | by apply keeps_reject]).
Qed.

Lemma keeps_session_unpublish pub :
  keeps p (session_unpublish pub) (fun _ => True).
Proof. unfold session_unpublish. keeps_chain fail. Qed.

Lemma keeps_endCall : keeps p endCall (fun _ => True).
Proof.
  unfold endCall, logging.log, state.getPubSub, state.removeAllPublishers,
    state.removeAllSubscribers.
  keeps_chain ltac:(apply keeps_forEach; intros ?; apply keeps_session_unpublish).
Qed.

Lemma keeps_unsubscribe sub : keeps p (unsubscribe sub) (fun q => q <> p).
Proof.
  unfold unsubscribe. apply keeps_new_Promise. intros q Hq.
  unfold logging.log, session_unsubscribe, state.removeSubscriber.
  keeps_chain ltac:(by apply keeps_resolve).
Qed.

Lemma keeps_init options : keeps p (init options) (fun q => q <> p).
Proof.
  unfold init. apply keeps_new_Promise. intros q Hq.
  eapply keeps_bind with (Q := fun _ => True).
  { intros w Hw. rewrite validateOptions_eq. cbn. split; [|done].
    revert Hw. by apply abandoned_ext. }
  intros _ _. unfold createEventListeners, accPack_on.
  keeps_chain ltac:(by apply keeps_resolve).
Qed.

Lemma keeps_onStreamCreated stream :
  keeps p (onStreamCreated stream) (fun _ => True).
Proof.
  unfold onStreamCreated.
  eapply keeps_bind; [keeps_pure|]. intros a _.
  eapply keeps_bind; [keeps_pure|]. intros b _.
  destruct (a && b); [|by apply keeps_ret].
  eapply keeps_bind; [apply keeps_subscribe|]. intros _ _. by apply keeps_ret.
Qed.

Lemma keeps_onStreamDestroyed stream :
  keeps p (onStreamDestroyed stream) (fun _ => True).
Proof.
  unfold onStreamDestroyed, state.removeStream, state.getPubSub.
  keeps_chain ltac:(first [ apply keeps_triggerEvent
                          | apply keeps_when; apply keeps_triggerEvent ]).
Qed.

Lemma keeps_enableLocalAV id source enable :
  keeps p (enableLocalAV id source enable) (fun _ => True).
Proof.
  unfold enableLocalAV, state.getPubSub.
  eapply keeps_bind; [keeps_pure|]. intros d _.
  destruct (_ !! _); [destruct (bool_decide _)|]; keeps_pure.
Qed.

Lemma keeps_enableRemoteAV id source enable :
  keeps p (enableRemoteAV id source enable) (fun _ => True).
Proof.
  unfold enableRemoteAV, state.getPubSub.
  eapply keeps_bind; [keeps_pure|]. intros d _.
  destruct (_ !! _); [destruct (bool_decide _)|]; keeps_pure.
Qed.

(** Whatever happens next, an abandoned promise stays abandoned. *)
Lemma react_keeps i w : abandoned p w -> abandoned p (react i w).
Proof.
  intros Hw. destruct i; cbn -[exec].
  - by apply keeps_init.
  - by apply keeps_startCall.
  - by apply keeps_endCall.
  - by apply keeps_subscribe.
  - by apply keeps_unsubscribe.
  - by apply keeps_enableLocalAV.
  - by apply keeps_enableRemoteAV.
  - by apply keeps_onStreamCreated.
  - by apply keeps_onStreamDestroyed.
  - unfold fire. destruct (pending (runtime w) !! i) as [cb|] eqn:E; [|done].
    destruct Hw as (Hp & Hlt & Hh & Hj & Hc).
    apply keeps_run_callback.
    + apply Hc. by eapply list_elem_of_lookup_2.
    + destruct w as [vs st tr hd [hp n al qu pd]].
      unfold abandoned, unreferenced, promise_state in *. cbn in *.
      repeat split; try done.
      intros cb' Hin. apply Hc. by eapply list_elem_of_delete_inv.
  - unfold microtask. destruct (queue (runtime w)) as [|j q] eqn:E; [done|].
    destruct Hw as (Hp & Hlt & Hh & Hj & Hc).
    apply keeps_run_job.
    + apply Hj. rewrite E. by left.
    + destruct w as [vs st tr hd [hp n al qu pd]].
      unfold abandoned, unreferenced, promise_state in *. cbn in *. subst.
      repeat split; try done.
      intros j' Hin. apply Hj. by right.
  - revert Hw. by apply abandoned_ext.
Qed.

Lemma reachable_keeps w w' : reachable w w' -> abandoned p w -> abandoned p w'.
Proof.
  induction 1 as [|w1 w2 w3 [i ->] _ IH]; [done|].
  intros Hw. by apply IH, react_keeps.
Qed.

End Keeps.

(** * A failed publish leaves the promise of startCall pending for ever *)

(** C9. When [startCall] passes the connection-limit check and the SDK
    then reports that creating the publisher failed, the promise of
    [publish] is rejected, and the promise [startCall] returned is pending
    and stays pending whatever happens afterwards (any call of the module,
    any job, any answer of the SDK): nothing holds its [resolve] or
    [reject].  The active flag is as it was. *)
Theorem startCall_publish_failure_hangs w bus fn e fuel w' :
  accPack (vars w) = Some bus ->
  streamContainers (vars w) = Some fn ->
  ableToJoin w = (Ok true, w) ->
  queue (runtime w) = [] ->
  unreferenced (next (runtime w)) w ->
  3 <= fuel ->
  let pStart := next (runtime w) in
  let pPublish := S pStart in
  let w1 := exec startCall w in
  let w2 := drain fuel (fire (length (pending (runtime w))) (Some e) w1) in
  reachable w2 w' ->
  (startCall w).1 = Ok pStart /\
  promise_state w1 pStart = Some (Pending []) /\
  promise_state w2 pPublish = Some (Rejected (VError e)) /\
  queue (runtime w2) = [] /\
  active (vars w2) = active (vars w) /\
  promise_state w' pStart = Some (Pending []).
Proof.
  intros Hbus Hfn Hable Hq Hfresh Hfuel.
  destruct fuel as [|[|[|fuel]]]; [lia|lia|lia|].
  assert (E0 : exists r w1, startCall w = (r, w1)) by (destruct (startCall w); eauto).
  destruct E0 as (r & w1 & E0).
  cbn zeta. unfold exec. rewrite E0. cbn [fst snd].
  unfold startCall in E0. autounfold with comm in E0. cbn in E0.
  match type of E0 with context [ableToJoin ?x] =>
    replace (ableToJoin x) with (@Ok bool true, x) in E0 end.
  2:{ symmetry. apply ableToJoin_true. apply ableToJoin_true in Hable. done. }
  destruct_world w. subst.
  unfold publish, createPublisher in E0. autounfold with comm in E0.
  run_in E0. 
  injection E0 as <- <-.
  erewrite fire_last by (cbn; reflexivity).
  match goal with |- context [exec (run_callback ?a ?b) ?w] =>
    evaluate (exec (run_callback a b) w) by
      (fun E => unfold exec, run_callback, initPublisher_callback in E;
                autounfold with comm in E) end.
  erewrite drain_step by (cbn; reflexivity).
  match goal with |- context [microtask ?w] =>
    evaluate (microtask w) by
      (fun E => unfold microtask, run_job in E; cbn in E;
                autounfold with comm in E) end.
  erewrite drain_step by (cbn; reflexivity).
  match goal with |- context [microtask ?w] =>
    evaluate (microtask w) by
      (fun E => unfold microtask, run_job in E; cbn in E;
                unfold publish_catch in E;
                autounfold with comm in E) end.
  erewrite drain_step by (cbn; reflexivity).
  match goal with |- context [microtask ?w] =>
    evaluate (microtask w) by
      (fun E => unfold microtask, run_job in E; cbn in E;
                autounfold with comm in E) end.
  rewrite drain_empty by done.
  intros Hreach.
  unfold promise_state at 1 2. proj_simpl. heap_simpl.
  repeat (split; [done|]).
  eapply reachable_keeps in Hreach; [apply Hreach|].
  destruct Hfresh as (Hh & Hj & Hc). cbn in Hh, Hj, Hc.
  unfold abandoned, unreferenced, promise_state. proj_simpl. heap_simpl.
  split; [done|]. split; [lia|]. split; [|split; [|done]].
  - intros q s r Hq Hr.
    repeat (apply lookup_insert_Some in Hq as [[<- <-]|[? Hq]];
            [cbn in Hr; first [by apply elem_of_nil in Hr | done] | ]).
    by eapply Hh.
  - intros j. by rewrite elem_of_nil.
Qed.
(** * The invariant of the asynchronous part *)

Lemma uncounted_app l1 l2 : uncounted (l1 ++ l2) = uncounted l1 + uncounted l2.
Proof. unfold uncounted. by rewrite List.filter_app, length_app. Qed.

Lemma uncounted_insert sts i s s' :
  sts !! i = Some s ->
  uncounted (<[i := s']> sts) + (if is_counted s then 0 else 1) =
  uncounted sts + (if is_counted s' then 0 else 1).
Proof.
  intros Hi.
  rewrite <- (take_drop_middle sts i s Hi) at 2.
  rewrite insert_take_drop by (by eapply lookup_lt_Some).
  rewrite !uncounted_app.
  change (s' :: drop (S i) sts) with ([s'] ++ drop (S i) sts).
  change (s :: drop (S i) sts) with ([s] ++ drop (S i) sts).
  rewrite !uncounted_app.
  replace (uncounted [s']) with (if is_counted s' then 0 else 1) by by destruct s'.
  replace (uncounted [s]) with (if is_counted s then 0 else 1) by by destruct s.
  lia.
Qed.

Lemma uncounted_zero sts i s :
  uncounted sts = 0 -> sts !! i = Some s -> s = Counted.
Proof.
  intros H0 Hi. rewrite <- (take_drop_middle sts i s Hi) in H0.
  change (s :: drop (S i) sts) with ([s] ++ drop (S i) sts) in H0.
  rewrite !uncounted_app in H0.
  destruct s; cbn in H0; try lia. done.
Qed.

Lemma uncounted_replicate n s :
  s <> Counted -> uncounted (replicate n s) = n.
Proof.
  intros Hs. induction n as [|n IH]; [done|].
  change (replicate (S n) s) with ([s] ++ replicate n s).
  rewrite uncounted_app, IH. by destruct s.
Qed.

Lemma fst_unique {A B} (l : list (A * B)) a b b' :
  NoDup l.*1 -> (a, b) ∈ l -> (a, b') ∈ l -> b = b'.
Proof.
  induction l as [|[a0 b0] l IH]; cbn; intros Hnd H1 H2.
  - by apply elem_of_nil in H1.
  - apply NoDup_cons in Hnd as [Hnot Hnd].
    apply elem_of_cons in H1 as [H1|H1];
      apply elem_of_cons in H2 as [H2|H2]; simplify_eq; try done.
    + destruct Hnot. apply list_elem_of_fmap. by exists (a0, b').
    + destruct Hnot. apply list_elem_of_fmap. by exists (a0, b).
    + by apply IH.
Qed.

Lemma status_inv_frame c qs qs' w w' i s :
  status_inv c qs w i s ->
  promise_state w' (c_sub c i) = promise_state w (c_sub c i) ->
  promise_state w' (c_elem c i) = promise_state w (c_elem c i) ->
  (forall r, (i, r) ∈ qs -> (i, r) ∈ qs') ->
  status_inv c qs' w' i s.
Proof.
  intros Hs E1 E2 Hqs. destruct s; unfold status_inv in *; rewrite ?E1, ?E2;
    try done.
  destruct Hs as [(r & Hr & Hp) He]. split; [|done]. exists r. auto.
Qed.

Lemma queued_pop (sts : list Status) i (l : list nat) s' :
  (forall i', sts !! i' = Some Queued <-> i' ∈ i :: l) ->
  NoDup (i :: l) ->
  s' <> Queued ->
  forall i', <[i := s']> sts !! i' = Some Queued <-> i' ∈ l.
Proof.
  intros Hq Hnd Hs' i'. apply NoDup_cons in Hnd as [Hnot Hnd].
  destruct (decide (i' = i)) as [->|Hne].
  - split; [|done]. intros Hi.
    pose proof (lookup_lt_Some _ _ _ Hi) as Hlt. rewrite length_insert in Hlt.
    rewrite list_lookup_insert_eq in Hi by done. by simplify_eq.
  - rewrite list_lookup_insert_ne by done. rewrite Hq, elem_of_cons. naive_solver.
Qed.

Lemma waiting_insert (sts : list Status) i s0 s' i' :
  sts !! i = Some s0 -> s0 <> Waiting -> s' <> Waiting ->
  <[i := s']> sts !! i' = Some Waiting -> sts !! i' = Some Waiting.
Proof.
  intros Hi H0 Hs'. destruct (decide (i' = i)) as [->|Hne].
  - rewrite list_lookup_insert_eq by (by eapply lookup_lt_Some).
    intros ?. by simplify_eq.
  - by rewrite list_lookup_insert_ne.
Qed.

Lemma failed_insert_keep (sts : list Status) i s0 s' :
  sts !! i = Some s0 -> s0 <> Failed -> Failed ∈ sts -> Failed ∈ <[i := s']> sts.
Proof.
  intros Hi H0 (j & Hj)%list_elem_of_lookup.
  apply list_elem_of_lookup. exists j.
  rewrite list_lookup_insert_ne; [done|]. intros ->. congruence.
Qed.

Lemma failed_insert_not (sts : list Status) i s' :
  s' <> Failed -> Failed ∉ sts -> Failed ∉ <[i := s']> sts.
Proof.
  intros Hs' Hnot (j & Hj)%list_elem_of_lookup.
  destruct (decide (j = i)) as [->|Hne].
  - pose proof (lookup_lt_Some _ _ _ Hj) as Hlt. rewrite length_insert in Hlt.
    rewrite list_lookup_insert_eq in Hj by done. congruence.
  - rewrite list_lookup_insert_ne in Hj by done.
    apply Hnot, list_elem_of_lookup. eauto.
Qed.

Lemma failed_insert_new (sts : list Status) i :
  i < length sts -> Failed ∈ <[i := Failed]> sts.
Proof.
  intros Hi. apply list_elem_of_lookup. exists i.
  by rewrite list_lookup_insert_eq.
Qed.

Lemma uncounted_count (sts : list Status) i :
  sts !! i = Some Queued ->
  uncounted (<[i := Counted]> sts) = pred (uncounted sts).
Proof. intros Hi. pose proof (uncounted_insert sts i _ Counted Hi). cbn in *. lia. Qed.

Lemma uncounted_keep (sts : list Status) i s s' :
  sts !! i = Some s -> s <> Counted -> s' <> Counted ->
  uncounted (<[i := s']> sts) = uncounted sts.
Proof.
  intros Hi Hs Hs'. pose proof (uncounted_insert sts i _ s' Hi).
  destruct s, s'; cbn in *; try done; lia.
Qed.

Lemma uncounted_pos (sts : list Status) i s :
  sts !! i = Some s -> s <> Counted -> 0 < uncounted sts.
Proof.
  intros Hi Hs. destruct (uncounted sts) eqn:E; [|lia].
  by rewrite (uncounted_zero sts i s E Hi) in Hs.
Qed.

Lemma queued_push (sts : list Status) i s0 :
  sts !! i = Some s0 ->
  (forall i', sts !! i' = Some Queued <-> i' ∈ @nil nat) ->
  forall i', <[i := Queued]> sts !! i' = Some Queued <-> i' ∈ [i].
Proof.
  intros Hi Hq i'. rewrite list_elem_of_singleton.
  destruct (decide (i' = i)) as [->|Hne].
  - rewrite list_lookup_insert_eq by (by eapply lookup_lt_Some). done.
  - rewrite list_lookup_insert_ne by done. rewrite Hq, elem_of_nil. done.
Qed.

Lemma list_lookup_delete_Some {A} (l : list A) j j' x :
  delete j l !! j' = Some x ->
  exists k, l !! k = Some x /\ ((j' < j /\ k = j') \/ (j <= j' /\ k = S j')).
Proof.
  intros H. destruct (decide (j' < j)) as [Hlt|Hge].
  - rewrite list_lookup_delete_lt in H by done. exists j'. split; [done|]. lia.
  - rewrite list_lookup_delete_ge in H by lia. exists (S j'). split; [done|]. lia.
Qed.

Section CallSteps.
Variable c : Call.

(** The status of an element the step did not touch. *)
Ltac frame_status Hsts Hlen :=
  let i := fresh "i" in let s := fresh "s" in let Hi := fresh "Hi" in
  intros i s Hi;
  pose proof (lookup_lt_Some _ _ _ Hi);
  eapply status_inv_frame;
  [ by apply Hsts
  | unfold promise_state; cbn; heap_simpl; done
  | unfold promise_state; cbn; heap_simpl; done
  | done ].

Ltac keep_trace Htr :=
  let new := fresh "new" in
  destruct Htr as (new & -> & ? & ?); exists new; by repeat split.

Ltac add_event Htr :=
  let new := fresh "new" in
  let He := fresh "He" in let Hm := fresh "Hm" in
  destruct Htr as (new & -> & He & Hm);
  eexists (_ :: new); split; [reflexivity|]; cbn; rewrite He, Hm; done.

Lemma call_microtask_tail sts ph w :
  CallInv c [] sts [] ph w -> queue (runtime w) <> [] ->
  exists ph',
    CallInv c [] sts [] ph' (microtask w) /\ potential ph' < potential ph.
Proof.
  intros [Hst Hlen Hbus Hq Hnd Hqd Hsts Hall Hpd Hinj Htr Hph] Hne.
  destruct w as [[ses ap cp sp sc au cl ac] st tr hd [hp nx al qu pd]].
  cbn in *. destruct Hbus as [bus ->].
  destruct ph; cbn in Hq; subst qu; try done.
  - destruct Hph as (HpAll & HpThen & HpCatch & HpStart & Hun & Hact).
    unfold promise_state in *. cbn in *.
    match goal with |- context [microtask ?w] =>
      eval_with (microtask w)
        ltac:(fun E => unfold microtask, run_job in E; cbn in E;
                       unfold startCall_all_then in E;
                       autounfold with comm in E)
        ltac:(fun E => rewrite ?HpStart, ?HpThen in E) end.
    exists (Starting (pubSub_of st)). split; [|cbn; lia].
    constructor; cbn; try done.
    + frame_status Hsts Hlen.
    + add_event Htr.
    + unfold promise_state; cbn; heap_simpl. done.
  - destruct Hph as (HpCatch & HpStart & Hun & Hact & Hd).
    unfold promise_state in *. cbn in *.
    match goal with |- context [microtask ?w] =>
      eval_with (microtask w)
        ltac:(fun E => unfold microtask, run_job in E; cbn in E;
                       autounfold with comm in E)
        ltac:(fun E => rewrite ?HpCatch in E) end.
    exists (Started d). split; [|cbn; lia].
    constructor; cbn; try done.
    + frame_status Hsts Hlen.
    + unfold promise_state; cbn; heap_simpl. done.
  - destruct Hph as (HpAll & HpThen & HpCatch & HpStart & Hf & Hact).
    unfold promise_state in *. cbn in *.
    match goal with |- context [microtask ?w] =>
      eval_with (microtask w)
        ltac:(fun E => unfold microtask, run_job in E; cbn in E;
                       autounfold with comm in E)
        ltac:(fun E => rewrite ?HpThen in E) end.
    exists (Catching e). split; [|cbn; lia].
    constructor; cbn; try done.
    + frame_status Hsts Hlen.
    + unfold promise_state; cbn; heap_simpl. done.
  - destruct Hph as (HpAll & HpCatch & HpStart & Hf & Hact).
    unfold promise_state in *. cbn in *.
    match goal with |- context [microtask ?w] =>
      eval_with (microtask w)
        ltac:(fun E => unfold microtask, run_job in E; cbn in E;
                       unfold startCall_all_catch in E;
                       autounfold with comm in E)
        ltac:(fun E => rewrite ?HpCatch in E) end.
    exists (Refused e). split; [|cbn; lia].
    constructor; cbn; try done.
    + frame_status Hsts Hlen.
    + add_event Htr.
    + unfold promise_state; cbn; heap_simpl. done.
Qed.

Ltac rew_lookups E :=
  repeat match goal with
         | H : _ !! _ = Some _ |- _ => rewrite H in E
         end.

Ltac run_microtask :=
  match goal with |- context [microtask ?w] =>
    eval_with (microtask w)
      ltac:(fun E => unfold microtask, run_job in E; cbn in E;
                     unfold all_element_done, all_state, set_all_state in E;
                     autounfold with comm in E)
      ltac:(fun E => rew_lookups E) end.

(** The element job at the head of the queue has run: what is left to
    show of the invariant. *)
Ltac elem_fields Hlen Hnd Hqd Hsts Hpd Hinj Hi Hsub i :=
  match goal with
  | |- length _ = _ => by rewrite length_insert
  | |- NoDup _ => by apply NoDup_cons in Hnd as []
  | |- forall _, _ <-> _ => by eapply queued_pop
  | |- forall _ _, _ !! _ = Some _ -> status_inv _ _ _ _ _ =>
      let i' := fresh "i'" in let s' := fresh "s'" in
      let Hi' := fresh "Hi'" in
      intros i' s' Hi';
      destruct (decide (i' = i)) as [->|Hne];
      [ rewrite list_lookup_insert_eq in Hi' by done; simplify_eq; cbn;
        eexists; unfold promise_state; cbn; heap_simpl; exact Hsub
      | rewrite list_lookup_insert_ne in Hi' by done;
        pose proof (lookup_lt_Some _ _ _ Hi');
        eapply status_inv_frame;
        [ by apply Hsts
        | unfold promise_state; cbn; heap_simpl; done
        | unfold promise_state; cbn; heap_simpl; done
        | let r' := fresh in
          intros r' [?|?]%elem_of_cons; [simplify_eq|done] ] ]
  | |- forall _ _, _ !! _ = Some _ -> own_callback _ _ -> _ =>
      let j := fresh "j" in let cb := fresh "cb" in
      let Hj := fresh "Hj" in let Hown := fresh "Hown" in
      intros j cb Hj Hown;
      destruct (Hpd j cb Hj Hown) as (? & ? & ? & -> & ?);
      do 3 eexists; split; [reflexivity|];
      rewrite list_lookup_insert_ne; [done | intros ->; congruence]
  | |- forall _ _ _ _, _ => exact Hinj
  | |- _ ++ _ = _ => by rewrite ?app_nil_r, <- ?app_assoc
  | |- exists _, _ !! _ = Some _ =>
      eexists; rewrite ?lookup_insert_eq;
      first [ do 2 f_equal; done
            | erewrite uncounted_keep by done;
              match goal with H : _ = uncounted _ |- _ => rewrite <- H end;
              eassumption ]
  | |- _ =>
      unfold phase_inv, promise_state; cbn; heap_simpl;
      repeat split;
      first [ done | lia
            | by eapply failed_insert_keep
            | by apply failed_insert_not
            | by apply failed_insert_new
            | erewrite uncounted_keep by done;
              match goal with H : _ = uncounted _ |- _ => rewrite <- H end;
              lia ]
  end.

Ltac close_elem Hlen Hnd Hqd Hsts Hpd Hinj Hi Hsub i :=
  split; [|cbn; lia];
  constructor; cbn;
  first [ done | elem_fields Hlen Hnd Hqd Hsts Hpd Hinj Hi Hsub i ].

Lemma call_microtask_elem sts i r qs ph w :
  CallInv c [] sts ((i, r) :: qs) ph w ->
  exists sts' ph',
    CallInv c [] sts' qs ph' (microtask w) /\ potential ph' <= potential ph.
Proof.
  intros [Hst Hlen Hbus Hq Hnd Hqd Hsts Hall Hpd Hinj Htr Hph].
  assert (Hi : sts !! i = Some Queued) by (apply Hqd; cbn; by left).
  pose proof (lookup_lt_Some _ _ _ Hi) as Hlti.
  pose proof (uncounted_pos sts i Queued Hi ltac:(done)) as Hpos.
  pose proof (uncounted_count sts i Hi) as Hcount.
  pose proof (Hsts i Queued Hi) as [(r0 & Hr0 & Hsub) Helem].
  assert (r0 = r) as -> by (eapply fst_unique; [exact Hnd|exact Hr0|by left]).
  destruct Hall as [vals Hall].
  remember (uncounted sts) as rem eqn:Hrem.
  destruct w as [[ses ap cp sp sc au cl ac] st tr hd [hp nx al qu pd]].
  unfold promise_state in *. cbn in *. destruct Hbus as [bus ->]. subst qu.
  destruct r as [v|e]; cbn in *.
  - destruct rem as [|[|rem]]; [lia| |];
      destruct ph; cbn in Hph; unfold promise_state in Hph; cbn in Hph;
      destruct_and? Hph; try lia; run_microtask.
    + exists (<[i := Counted]> sts), (Resolved (VArray (<[i := v]> vals))).
      close_elem Hlen Hnd Hqd Hsts Hpd Hinj Hi Hsub i.
    + exists (<[i := Counted]> sts), (Refusing e).
      close_elem Hlen Hnd Hqd Hsts Hpd Hinj Hi Hsub i.
    + exists (<[i := Counted]> sts), (Catching e).
      close_elem Hlen Hnd Hqd Hsts Hpd Hinj Hi Hsub i.
    + exists (<[i := Counted]> sts), (Refused e).
      close_elem Hlen Hnd Hqd Hsts Hpd Hinj Hi Hsub i.
    + exists (<[i := Counted]> sts), Open.
      close_elem Hlen Hnd Hqd Hsts Hpd Hinj Hi Hsub i.
    + exists (<[i := Counted]> sts), (Refusing e).
      close_elem Hlen Hnd Hqd Hsts Hpd Hinj Hi Hsub i.
    + exists (<[i := Counted]> sts), (Catching e).
      close_elem Hlen Hnd Hqd Hsts Hpd Hinj Hi Hsub i.
    + exists (<[i := Counted]> sts), (Refused e).
      close_elem Hlen Hnd Hqd Hsts Hpd Hinj Hi Hsub i.
  - destruct ph; cbn in Hph; unfold promise_state in Hph; cbn in Hph;
      destruct_and? Hph; try lia; run_microtask.
    + exists (<[i := Failed]> sts), (Refusing e).
      close_elem Hlen Hnd Hqd Hsts Hpd Hinj Hi Hsub i.
    + exists (<[i := Failed]> sts), (Refusing e0).
      close_elem Hlen Hnd Hqd Hsts Hpd Hinj Hi Hsub i.
    + exists (<[i := Failed]> sts), (Catching e0).
      close_elem Hlen Hnd Hqd Hsts Hpd Hinj Hi Hsub i.
    + exists (<[i := Failed]> sts), (Refused e0).
      close_elem Hlen Hnd Hqd Hsts Hpd Hinj Hi Hsub i.
Qed.

Lemma call_callback sts qs ph w j cb error :
  CallInv c [] sts qs ph w ->
  queue (runtime w) = [] ->
  pending (runtime w) !! j = Some cb ->
  own_callback c cb ->
  exists sts' qs',
    CallInv c [] sts' qs' ph (fire j error w) /\ length qs' = 1.
Proof.
  intros [Hst Hlen Hbus Hq Hnd Hqd Hsts Hall Hpd Hinj Htr Hph] Hempty Hj Hown.
  rewrite Hempty in Hq. symmetry in Hq. cbn in Hq.
  apply app_eq_nil in Hq as [Hq1 Hq2]. apply map_eq_nil in Hq1. subst qs.
  destruct (Hpd j cb Hj Hown) as (i & type & sub & -> & Hi).
  pose proof (lookup_lt_Some _ _ _ Hi) as Hlti.
  pose proof (uncounted_pos sts i Waiting Hi ltac:(done)) as Hpos.
  pose proof (uncounted_keep sts i Waiting Queued Hi ltac:(done) ltac:(done)) as Hkeep.
  pose proof (Hsts i Waiting Hi) as [Hsub Helem].
  destruct Hall as [vals Hall].
  destruct w as [[ses ap cp sp sc au cl ac] st tr hd [hp nx al qu pd]].
  unfold promise_state in *. cbn in *. destruct Hbus as [bus ->]. subst qu.
  unfold fire. cbn [runtime pending]. rewrite Hj.
  assert (Hphase : forall w',
    heap (runtime w') !! c_all c = hp !! c_all c ->
    heap (runtime w') !! c_then c = hp !! c_then c ->
    heap (runtime w') !! c_catch c = hp !! c_catch c ->
    heap (runtime w') !! c_start c = hp !! c_start c ->
    active (vars w') = ac ->
    phase_inv c ph (<[i := Queued]> sts) w').
  { intros w' E1 E2 E3 E4 E5.
    destruct ph; try done; unfold phase_inv, promise_state in *;
      rewrite ?E1, ?E2, ?E3, ?E4, ?E5, ?Hkeep; destruct_and? Hph;
      repeat split; try done; try lia.
    - by apply failed_insert_not.
    - by eapply failed_insert_keep. }
  destruct error as [e|]; [|destruct type];
    match goal with |- context [exec (run_callback ?a ?b) ?w] =>
      eval_with (exec (run_callback a b) w)
        ltac:(fun E => unfold exec, run_callback, subscribe_callback in E;
                       autounfold with comm in E)
        ltac:(fun E => rewrite ?Hsub in E) end;
    [ exists (<[i := Queued]> sts), [(i, inr (VError e))]
    | exists (<[i := Queued]> sts), [(i, inl VUndefined)]
    | exists (<[i := Queued]> sts), [(i, inl VUndefined)] ];
    (split; [|done]); constructor; cbn; try done.
  all: try (by rewrite length_insert).
  all: try (by rewrite Hq2).
  all: try apply NoDup_singleton.
  all: try (by eapply queued_push).
  all: try (exists vals; by rewrite Hkeep).
  all: try (apply Hphase; cbn; heap_simpl; done).
  all: try (destruct Htr as (new & -> & He & Hm);
            first [ eexists (_ :: _ :: _ :: new); split; [reflexivity|]
                  | eexists (_ :: _ :: new); split; [reflexivity|]
                  | eexists (_ :: new); split; [reflexivity|] ];
            cbn; by rewrite He, Hm).
  all: try (intros i' s' Hi';
    destruct (decide (i' = i)) as [->|Hne];
    [ rewrite list_lookup_insert_eq in Hi' by done; simplify_eq; cbn;
      split; [eexists; split; [by left|]|];
      unfold promise_state; cbn; heap_simpl; done
    | rewrite list_lookup_insert_ne in Hi' by done;
      pose proof (lookup_lt_Some _ _ _ Hi');
      eapply status_inv_frame;
      [ by apply Hsts
      | unfold promise_state; cbn; heap_simpl; done
      | unfold promise_state; cbn; heap_simpl; done
      | intros r' Hr'; by apply elem_of_nil in Hr' ] ]).
  all: try (intros j0 cb0 Hj0 Hown0;
    apply list_lookup_delete_Some in Hj0 as (k & Hk & Hcase);
    destruct (Hpd k cb0 Hk Hown0) as (i0 & ty0 & sub0 & -> & Hw0);
    exists i0, ty0, sub0; split; [done|];
    rewrite list_lookup_insert_ne; [done|]; intros ->;
    assert (k = j) by (eapply Hinj; [exact Hk | exact Hj | exact Hown0 | done]);
    lia).
  all: try (intros j1 j2 cb1 cb2 H1 H2 Hown1 Heq;
    apply list_lookup_delete_Some in H1 as (k1 & Hk1 & Hc1);
    apply list_lookup_delete_Some in H2 as (k2 & Hk2 & Hc2);
    assert (k1 = k2) by (eapply Hinj; eauto);
    lia).
Qed.
End CallSteps.
(** ** The initial subscriptions *)

Lemma mapM_subscribe_entry l :
  mapM (fun '(id, stream) => subscribe stream) l = mapM subscribe_entry l.
Proof.
  induction l as [|[id s] l IH]; [done|]. cbn. by rewrite IH.
Qed.

Lemma after_subscribe_facts stream w :
  let w' := after_subscribe stream w in
  next (runtime w') = S (next (runtime w)) /\
  vars w' = vars w /\ store w' = store w /\
  alls (runtime w') = alls (runtime w) /\
  queue (runtime w') = queue (runtime w) /\
  (forall k, k <> next (runtime w) ->
     heap (runtime w') !! k = heap (runtime w) !! k) /\
  fresh_state (heap (runtime w') !! next (runtime w)) /\
  (exists cbs, pending (runtime w') = pending (runtime w) ++ cbs /\
     Forall (fun cb => exists type sub,
               cb = CbSubscribe (next (runtime w)) type sub /\
               heap (runtime w') !! next (runtime w) = Some (Pending [])) cbs /\
     length cbs <= 1) /\
  exists new, trace w' = new ++ trace w /\ quiet_events new.
Proof.
  unfold after_subscribe, with_promise.
  destruct w as [v st tr hd [h n al q pd]].
  destruct (subscribe_outcome _ _); cbn.
  - repeat split; try done.
    + intros k Hk. by rewrite lookup_insert_ne.
    + by rewrite lookup_insert_eq.
    + exists []. rewrite app_nil_r. split; [done|]. split; [constructor|cbn; lia].
    + eexists [_]. split; [reflexivity|]. done.
  - repeat split; try done.
    + intros k Hk. by rewrite lookup_insert_ne.
    + by rewrite lookup_insert_eq.
    + eexists [_]. split; [done|]. split; [|cbn; lia].
      constructor; [|done]. do 2 eexists. split; [done|].
      by rewrite lookup_insert_eq.
    + eexists [_; _]. split; [reflexivity|]. done.
  - repeat split; try done.
    + intros k Hk. by rewrite lookup_insert_ne.
    + by rewrite lookup_insert_eq.
    + exists []. rewrite app_nil_r. split; [done|]. split; [constructor|cbn; lia].
    + eexists [_]. split; [reflexivity|]. done.
Qed.

Lemma quiet_events_app new1 new2 :
  quiet_events new1 -> quiet_events new2 -> quiet_events (new1 ++ new2).
Proof.
  intros [H1 H2] [H3 H4]. unfold quiet_events.
  by rewrite !List.filter_app, H1, H2, H3, H4.
Qed.

Lemma mapM_subscribe l w :
  exists w',
    mapM subscribe_entry l w = (Ok (seq (next (runtime w)) (length l)), w') /\
    subscribed_all (length l) w w'.
Proof.
  revert w. induction l as [|e l IH]; intros w.
  - exists w. cbn. split; [done|]. unfold subscribed_all.
    rewrite Nat.add_0_r. split_and!; try done.
    + intros i Hi. lia.
    + exists []. rewrite app_nil_r. split; [done|]. split; constructor.
    + by exists [].
  - destruct (IH (after_subscribe e.2 w)) as (w' & E & Hall).
    exists w'. cbn [mapM length]. unfold subscribe_entry at 1. cbn.
    rewrite subscribe_eq. cbn. rewrite E.
    destruct (after_subscribe_facts e.2 w)
      as (Hn1 & Hv1 & Hs1 & Ha1 & Hq1 & Hh1 & Hf1 & (cbs1 & Hp1 & Hc1 & Hl1) & (new1 & Ht1 & Hqe1)).
    cbn zeta in *.
    destruct Hall as (Hn & Hv & Hs & Ha & Hq & Hh & Hf & (cbs & Hp & Hc & Hnd) & (new & Ht & Hqe)).
    rewrite Hn1 in *. split; [done|].
    unfold subscribed_all. split_and!.
    + lia.
    + congruence.
    + congruence.
    + congruence.
    + congruence.
    + intros k Hk. rewrite Hh by lia. apply Hh1. lia.
    + intros [|i] Hi.
      * rewrite Nat.add_0_r, Hh by lia. done.
      * replace (next (runtime w) + S i) with (S (next (runtime w)) + i) by lia.
        apply Hf. lia.
    + exists (cbs1 ++ cbs). split; [by rewrite Hp, Hp1, app_assoc|]. split.
      * apply Forall_app. split.
        -- eapply Forall_impl; [exact Hc1|]. cbn.
           intros cb (type & sub & -> & Hpend). exists 0, type, sub.
           rewrite Nat.add_0_r, Hh by lia. split; [lia|done].
        -- eapply Forall_impl; [exact Hc|]. cbn.
           intros cb (i & type & sub & Hi & -> & Hpend). exists (S i), type, sub.
           replace (next (runtime w) + S i) with (S (next (runtime w)) + i) by lia.
           split; [lia|done].
      * rewrite fmap_app. apply NoDup_app. split; [|split; [|done]].
        -- destruct cbs1 as [|cb1 [|]]; cbn in *; try lia; [constructor|].
           apply NoDup_singleton.
        -- intros p [cb1 [-> Hin1]]%list_elem_of_fmap [cb [Heq Hin]]%list_elem_of_fmap.
           rewrite Forall_forall in Hc1, Hc.
           destruct (Hc1 _ Hin1) as (? & ? & -> & _).
           destruct (Hc _ Hin) as (i & ? & ? & _ & -> & _). cbn in Heq. lia.
    + exists (new ++ new1). split; [by rewrite Ht, Ht1, app_assoc|].
      by apply quiet_events_app.
Qed.
Lemma settled_attach c i o : settled_result (attach c i o) = settled_result o.
Proof. by destruct o as [[]|]. Qed.

Lemma presettled_ext c h h' idx k :
  (forall i, idx <= i < idx + k ->
     settled_result (h !! c_sub c i) = settled_result (h' !! c_sub c i)) ->
  presettled c h idx k = presettled c h' idx k.
Proof.
  revert idx. induction k as [|k IH]; intros idx Hext; [done|].
  unfold presettled in *. cbn.
  rewrite Hext by lia. rewrite (IH (S idx)); [done|].
  intros i Hi. apply Hext. lia.
Qed.

Lemma presettled_S c h idx k :
  presettled c h idx (S k) =
  match settled_result (h !! c_sub c idx) with
  | Some r => [(idx, r)]
  | None => []
  end ++ presettled c h (S idx) k.
Proof.
  unfold presettled. cbn.
  by destruct (settled_result (h !! c_sub c idx)).
Qed.

Lemma c_sub_minus c i : c_sub c i - c_first c = i.
Proof. ids. Qed.

Lemma c_sub_S c i : S (c_sub c i) = c_sub c (S i).
Proof. ids. Qed.

Lemma all_visit_spec c k : forall idx w vals r,
  idx + k <= c_count c ->
  next (runtime w) = c_elem c idx ->
  (forall i, idx <= i < idx + k ->
     fresh_state (heap (runtime w) !! c_sub c i)) ->
  alls (runtime w) !! c_all c =
    Some {| all_values := vals; all_remaining := r |} ->
  exists w',
    all_visit (c_all c) idx (seq (c_sub c idx) k) w = (Ok tt, w') /\
    next (runtime w') = c_elem c (idx + k) /\
    vars w' = vars w /\ store w' = store w /\ trace w' = trace w /\
    pending (runtime w') = pending (runtime w) /\
    queue (runtime w') =
      queue (runtime w) ++
      map (elem_job c) (presettled c (heap (runtime w)) idx k) /\
    alls (runtime w') !! c_all c =
      Some {| all_values := vals ++ replicate k VUndefined;
              all_remaining := r + k |} /\
    forall p, heap (runtime w') !! p = visited_heap c idx k (heap (runtime w)) p.
Proof.
  induction k as [|k IH]; intros idx w vals r Hk Hnx Hfresh Hall.
  - exists w. cbn. rewrite !Nat.add_0_r, !app_nil_r. split_and!; try done.
    intros p. unfold visited_heap. rewrite Nat.add_0_r.
    repeat case_decide; try lia; done.
  - destruct w as [v st tr hd [hp nx al qu pd]]. cbn in Hnx, Hfresh, Hall. subst nx.
    pose proof (Hfresh idx ltac:(lia)) as Hf0.
    cbn [seq all_visit]. rewrite c_sub_S.
    unfold all_state, set_all_state. autounfold with comm. cbn.
    rewrite Hall. cbn. heap_simpl.
    destruct (hp !! c_sub c idx) as [[rs|v0|e0]|] eqn:Hp0; cbn in Hf0; try done;
      subst; cbn;
      match goal with |- context [all_visit _ (S idx) _ ?w1] =>
        destruct (IH (S idx) w1 (vals ++ [VUndefined]) (S r))
          as (w' & E & Hn' & Hv' & Hs' & Ht' & Hp' & Hq' & Ha' & Hh');
        [ lia | cbn; ids
        | intros i Hi; cbn; heap_simpl; apply Hfresh; lia
        | cbn; by heap_simpl
        | exists w'; rewrite E; cbn in * ]
      end.
    all: rewrite presettled_S, Hp0; cbn [settled_result].
    all: rewrite Hq', (presettled_ext c _ hp (S idx) k)
      by (intros i Hi; by heap_simpl).
    all: replace (idx + S k) with (S idx + k) by lia.
    all: split_and!; try done.
    all: try by rewrite <- app_assoc.
    all: try (rewrite Ha', <- app_assoc; do 2 f_equal; lia).
    all: intros p; rewrite Hh'; unfold visited_heap.
    all: replace (idx + S k) with (S idx + k) by lia.
    all: destruct (decide (p = c_sub c idx)) as [->|];
      [|destruct (decide (p = c_elem c idx)) as [->|]].
    all: repeat case_decide; try ids; heap_simpl; try done.
    all: rewrite ?c_sub_minus, ?Hp0; try done.
Qed.
Lemma presettled_elem c h idx k i r :
  (i, r) ∈ presettled c h idx k <->
  idx <= i < idx + k /\ settled_result (h !! c_sub c i) = Some r.
Proof.
  unfold presettled. rewrite list_elem_of_omap. split.
  - intros (x & Hx%elem_of_seq & Hs).
    destruct (settled_result (h !! c_sub c x)) eqn:E; cbn in Hs; [|done].
    by simplify_eq.
  - intros [Hi Hs]. exists i. rewrite elem_of_seq, Hs. done.
Qed.

Lemma presettled_nodup c h idx k : NoDup (presettled c h idx k).*1.
Proof.
  revert idx. induction k as [|k IH]; intros idx; [constructor|].
  rewrite presettled_S, fmap_app. apply NoDup_app. split_and!.
  - destruct (settled_result _); cbn; [apply NoDup_singleton|constructor].
  - intros i Hi [[i' r] [Heq Hin]]%list_elem_of_fmap. cbn in Heq. subst i'.
    apply presettled_elem in Hin as [Hin _].
    destruct (settled_result _); cbn in Hi; [|by apply elem_of_nil in Hi].
    apply list_elem_of_singleton in Hi. lia.
  - apply IH.
Qed.

Lemma initial_statuses_lookup c h i s :
  initial_statuses c h !! i = Some s <->
  i < c_count c /\ s = initial_status (h !! c_sub c i).
Proof.
  unfold initial_statuses. rewrite list_lookup_fmap. split.
  - intros H. destruct (seq 0 (c_count c) !! i) as [i'|] eqn:E; [|done].
    apply lookup_seq in E as [-> ?]. cbn in H. by simplify_eq.
  - intros [Hi ->]. by rewrite lookup_seq_lt.
Qed.

Lemma uncounted_initial c h : uncounted (initial_statuses c h) = c_count c.
Proof.
  unfold initial_statuses.
  assert (forall l : list nat,
    uncounted ((fun i => initial_status (h !! c_sub c i)) <$> l) = length l) as H.
  { induction l as [|i l IH]; [done|].
    rewrite fmap_cons.
    change (?x :: ?l') with ([x] ++ l') at 1.
    rewrite uncounted_app, IH. cbn [length]. f_equal.
    by destruct (h !! c_sub c i) as [[]|]. }
  by rewrite H, length_seq.
Qed.

Lemma initial_statuses_length c h : length (initial_statuses c h) = c_count c.
Proof. unfold initial_statuses. by rewrite length_fmap, length_seq. Qed.

Lemma initial_queued c h :
  (forall i, i < c_count c -> fresh_state (h !! c_sub c i)) ->
  forall i, initial_statuses c h !! i = Some Queued <->
            i ∈ (presettled c h 0 (c_count c)).*1.
Proof.
  intros Hfresh i. rewrite initial_statuses_lookup, list_elem_of_fmap. split.
  - intros [Hi Hs]. specialize (Hfresh i Hi).
    destruct (h !! c_sub c i) as [[rs|v|e]|] eqn:E; cbn in *; try done.
    + exists (i, inl v). split; [done|]. apply presettled_elem.
      rewrite E. split; [lia|done].
    + exists (i, inr e). split; [done|]. apply presettled_elem.
      rewrite E. split; [lia|done].
  - intros [[i' r] [Heq Hin]]. cbn in Heq. subst i'.
    apply presettled_elem in Hin as [? Hs].
    split; [lia|]. by destruct (h !! c_sub c i) as [[]|].
Qed.

Lemma initial_status_inv c h w i s :
  (forall i, i < c_count c -> fresh_state (h !! c_sub c i)) ->
  (forall i, i < c_count c ->
     promise_state w (c_sub c i) = attach c i (h !! c_sub c i)) ->
  (forall i, i < c_count c -> promise_state w (c_elem c i) = Some (Pending [])) ->
  initial_statuses c h !! i = Some s ->
  status_inv c (presettled c h 0 (c_count c)) w i s.
Proof.
  intros Hfresh Hsub Helem [Hi ->]%initial_statuses_lookup.
  specialize (Hfresh i Hi). specialize (Hsub i Hi). specialize (Helem i Hi).
  destruct (h !! c_sub c i) as [[rs|v|e]|] eqn:E; cbn in *; try done.
  - by subst rs.
  - split; [|done]. exists (inl v). split; [|done].
    apply presettled_elem. rewrite E. split; [lia|done].
  - split; [|done]. exists (inr e). split; [|done].
    apply presettled_elem. rewrite E. split; [lia|done].
Qed.

Lemma initial_pending c h (pd cbs : list Callback) j cb :
  Forall (fun cb => cb_promise cb < c_first c) pd ->
  Forall (fun cb => exists i type sub,
            i < c_count c /\ cb = CbSubscribe (c_sub c i) type sub /\
            h !! c_sub c i = Some (Pending [])) cbs ->
  (pd ++ cbs) !! j = Some cb -> own_callback c cb ->
  exists i type sub,
    cb = CbSubscribe (c_sub c i) type sub /\
    initial_statuses c h !! i = Some Waiting.
Proof.
  intros Hpd Hcbs Hj [Hown _].
  apply lookup_app_Some in Hj as [Hj|[_ Hj]].
  - rewrite Forall_forall in Hpd.
    pose proof (Hpd cb (list_elem_of_lookup_2 _ _ _ Hj)). lia.
  - rewrite Forall_forall in Hcbs.
    destruct (Hcbs cb (list_elem_of_lookup_2 _ _ _ Hj))
      as (i & type & sub & Hi & -> & Hh).
    exists i, type, sub. split; [done|].
    apply initial_statuses_lookup. by rewrite Hh.
Qed.

Lemma initial_pending_inj c (pd cbs : list Callback) j j' cb cb' :
  Forall (fun cb => cb_promise cb < c_first c) pd ->
  NoDup (cb_promise <$> cbs) ->
  (pd ++ cbs) !! j = Some cb -> (pd ++ cbs) !! j' = Some cb' ->
  own_callback c cb -> cb_promise cb = cb_promise cb' -> j = j'.
Proof.
  intros Hpd Hnd Hj Hj' [Hown _] Heq. rewrite Forall_forall in Hpd.
  apply lookup_app_Some in Hj as [Hj|[Hge Hj]].
  { pose proof (Hpd cb (list_elem_of_lookup_2 _ _ _ Hj)). lia. }
  apply lookup_app_Some in Hj' as [Hj'|[Hge' Hj']].
  { pose proof (Hpd cb' (list_elem_of_lookup_2 _ _ _ Hj')). lia. }
  assert (j - length pd = j' - length pd); [|lia].
  eapply (NoDup_lookup _ _ _ _ Hnd); rewrite list_lookup_fmap.
  - by rewrite Hj.
  - rewrite Hj'. cbn. by rewrite Heq.
Qed.

Lemma startCall_then_inv pStart tr0 w :
  is_Some (accPack (vars w)) ->
  pStart < next (runtime w) ->
  heap (runtime w) !! pStart = Some (Pending []) ->
  callbacks_known w ->
  (exists old, trace w = old ++ tr0 /\ quiet_events old) ->
  let c := call_of pStart tr0 w in
  exists w' sts qs,
    startCall_then pStart w = (Ok VUndefined, w') /\
    CallInv c (queue (runtime w)) sts qs (initial_phase c) w' /\
    forall p, p < c_first c -> heap (runtime w') !! p = heap (runtime w) !! p.
Proof.
  intros Hbus HpS HhS Hknown (old & Htr & Hold).
  destruct (mapM_subscribe (map_to_list (streams (store w))) w)
    as (w1 & E1 & Hn1 & Hv1 & Hs1 & Ha1 & Hq1 & Hh1 & Hf1 &
        (cbs & Hp1 & Hc1 & Hnd1) & (new & Ht1 & Hnew)).
  destruct w as [v st tr hd [hp nx al qu pd]].
  destruct w1 as [v1 st1 tr1 hd1 [hp1 nx1 al1 qu1 pd1]].
  cbn in Hbus, HpS, HhS, Htr, E1, Hn1, Hv1, Hs1, Ha1, Hq1, Hh1, Hf1, Hp1, Hc1, Ht1.
  subst v1 st1 al1 qu1 nx1 pd1 tr1 tr.
  intros c.
  assert (Hstart : c_start c = pStart) by done.
  assert (Hfirst : c_first c = nx) by done.
  assert (Hcount : c_count c = length (map_to_list (streams st))) by done.
  assert (Htrace : c_trace c = tr0) by done.
  assert (Hactive : c_active c = active v) by done.
  clearbody c.
  remember (length (map_to_list (streams st))) as n eqn:Hn.
  set (h1 := <[nx + n := Pending []]> hp1).
  destruct (all_visit_spec c n 0
    {| vars := v; store := st; trace := new ++ old ++ tr0; handles := hd1;
       runtime := {| heap := h1; next := S (nx + n);
                     alls := <[nx + n := {| all_values := []; all_remaining := 1 |}]> al;
                     queue := qu; pending := pd ++ cbs |} |} [] 1)
    as (w2 & E2 & Hn2 & Hv2 & Hs2 & Ht2 & Hp2 & Hq2 & Ha2 & Hh2).
  { lia. }
  { cbn. ids. }
  { intros i Hi. cbn. subst h1. rewrite lookup_insert_ne by ids.
    replace (c_sub c i) with (nx + i) by ids. apply Hf1. lia. }
  { cbn. replace (c_all c) with (nx + n) by ids. apply lookup_insert_eq. }
  destruct w2 as [v2 st2 tr2 hd2 [hp2 nx2 al2 qu2 pd2]].
  cbn in E2, Hn2, Hv2, Hs2, Ht2, Hp2, Hq2, Ha2, Hh2.
  subst v2 st2 tr2 pd2 nx2 qu2.
  replace (c_sub c 0) with nx in E2 by ids.
  replace (c_all c) with (nx + n) in E2, Ha2 by ids.
  replace (c_elem c n) with (c_then c) in E2 by ids.
  assert (HA : hp2 !! (nx + n) = Some (Pending [])).
  { rewrite Hh2. unfold visited_heap. repeat case_decide; try ids.
    subst h1. by rewrite lookup_insert_eq. }
  match goal with |- context [startCall_then pStart ?W] =>
    remember (startCall_then pStart W) as res eqn:E end.
  unfold startCall_then in E. autounfold with comm in E. cbn in E.
  rewrite mapM_subscribe_entry, E1 in E.
  unfold Promise_all in E. autounfold with comm in E. cbn in E.
  unfold all_state, all_element_done, all_state, set_all_state in E.
  fold h1 in E. rewrite E2 in E. cbn in E. rewrite Ha2 in E. cbn in E.
  assert (Hsub : forall i, i < n -> hp2 !! c_sub c i = attach c i (h1 !! c_sub c i)).
  { intros i Hi. rewrite Hh2. unfold visited_heap.
    repeat case_decide; try ids. by rewrite c_sub_minus. }
  assert (Helem : forall i, i < n -> hp2 !! c_elem c i = Some (Pending [])).
  { intros i Hi. rewrite Hh2. unfold visited_heap. repeat case_decide; try ids. done. }
  assert (Hlow : forall p, p < nx -> hp2 !! p = hp !! p).
  { intros p Hp. rewrite Hh2. unfold visited_heap. repeat case_decide; try ids.
    subst h1. rewrite lookup_insert_ne by lia. by apply Hh1. }
  assert (Hfresh : forall i, i < c_count c -> fresh_state (h1 !! c_sub c i)).
  { intros i Hi. subst h1. rewrite lookup_insert_ne by ids.
    replace (c_sub c i) with (nx + i) by ids. apply Hf1. lia. }
  assert (Hcbs : Forall (fun cb => exists i type sub,
            i < c_count c /\ cb = CbSubscribe (c_sub c i) type sub /\
            h1 !! c_sub c i = Some (Pending [])) cbs).
  { eapply Forall_impl; [exact Hc1|]. cbn.
    intros cb (i & type & sub & Hi & -> & Hh). exists i, type, sub.
    replace (c_sub c i) with (nx + i) by ids. subst h1.
    rewrite lookup_insert_ne by lia. split; [lia|done]. }
  assert (Hpd : Forall (fun cb => cb_promise cb < c_first c) pd).
  { unfold callbacks_known in Hknown. cbn in Hknown. by rewrite Hfirst. }
  assert (Hph : initial_phase c = match n with 0 => Resolved (VArray []) | S _ => Open end).
  { unfold initial_phase. by rewrite Hcount. }
  rewrite Hph. clear Hph.
  destruct n as [|n'].
  - cbn in E. autounfold with comm in E. cbn in E. rewrite HA in E. run_in E.
    replace (S (c_then c)) with (c_catch c) in E by ids.
    subst res.
    eexists _, (initial_statuses c h1), (presettled c h1 0 (c_count c)).
    split; [reflexivity|]. split.
    + constructor.
      * lia.
      * apply initial_statuses_length.
      * done.
      * cbn. by rewrite Hstart, Hcount, app_nil_r, <- app_assoc.
      * apply presettled_nodup.
      * by apply initial_queued.
      * intros i s Hi. eapply initial_status_inv; try done.
        -- intros i' Hi'. unfold promise_state. cbn. heap_simpl. apply Hsub. lia.
        -- intros i' Hi'. unfold promise_state. cbn. heap_simpl. apply Helem. lia.
      * rewrite uncounted_initial, Hcount. cbn.
        replace (c_all c) with (nx + 0) by ids. rewrite lookup_insert_eq. by eexists.
      * intros j cb. by apply initial_pending.
      * intros j j' cb cb'. by apply initial_pending_inj.
      * exists (new ++ old). cbn. rewrite Htrace, <- app_assoc. split; [done|].
        by apply quiet_events_app.
      * cbn. unfold promise_state, catch_reaction. cbn.
        replace (c_all c) with (nx + 0) by ids. rewrite Hstart. heap_simpl.
        rewrite Hlow, HhS, uncounted_initial by done. done.
    + intros p Hp. cbn. heap_simpl. apply Hlow. lia.
  - cbn in E. autounfold with comm in E. cbn in E. heap_simpl_in E. rewrite HA in E. run_in E.
    replace (S (c_then c)) with (c_catch c) in E by ids.
    subst res.
    eexists _, (initial_statuses c h1), (presettled c h1 0 (c_count c)).
    split; [reflexivity|]. split.
    + constructor.
      * lia.
      * apply initial_statuses_length.
      * done.
      * cbn. by rewrite Hcount, !app_nil_r.
      * apply presettled_nodup.
      * by apply initial_queued.
      * intros i s Hi. eapply initial_status_inv; try done.
        -- intros i' Hi'. unfold promise_state. cbn. heap_simpl. apply Hsub. lia.
        -- intros i' Hi'. unfold promise_state. cbn. heap_simpl. apply Helem. lia.
      * rewrite uncounted_initial, Hcount. cbn.
        replace (c_all c) with (nx + S n') by ids. rewrite lookup_insert_eq. by eexists.
      * intros j cb. by apply initial_pending.
      * intros j j' cb cb'. by apply initial_pending_inj.
      * exists (new ++ old). cbn. rewrite Htrace, <- app_assoc. split; [done|].
        by apply quiet_events_app.
      * cbn. unfold promise_state, catch_reaction, then_reaction. cbn.
        replace (c_all c) with (nx + S n') by ids. rewrite Hstart. heap_simpl.
        rewrite Hlow, HhS, uncounted_initial by done. split_and!; try done; try lia.
        intros (i & Hi)%list_elem_of_lookup.
        apply initial_statuses_lookup in Hi as [_ Hi].
        by destruct (h1 !! c_sub c i) as [[]|].
    + intros p Hp. cbn. heap_simpl. apply Hlow. lia.
Qed.
Lemma CallInv_frame c pre pre' sts qs ph w w' :
  CallInv c pre sts qs ph w ->
  vars w' = vars w -> store w' = store w -> trace w' = trace w ->
  alls (runtime w') = alls (runtime w) ->
  pending (runtime w') = pending (runtime w) ->
  queue (runtime w') = pre' ++ map (elem_job c) qs ++ tail_jobs c ph ->
  (forall p, p = c_start c \/ c_first c <= p ->
     heap (runtime w') !! p = heap (runtime w) !! p) ->
  CallInv c pre' sts qs ph w'.
Proof.
  intros [Hst Hlen Hbus Hq Hnd Hqd Hsts Hall Hpd Hinj Htr Hph] Hv Hs Ht Ha Hp Hq' Hh.
  assert (Hps : forall p, p = c_start c \/ c_first c <= p ->
            promise_state w' p = promise_state w p).
  { intros p Hp'. unfold promise_state. by apply Hh. }
  constructor; try done.
  - by rewrite Hv.
  - intros i s Hi. eapply status_inv_frame; [by apply Hsts| | |done];
      apply Hps; right; ids.
  - by rewrite Ha.
  - rewrite Hp. apply Hpd.
  - rewrite Hp. apply Hinj.
  - by rewrite Ht.
  - destruct ph; cbn in *; rewrite ?Hv, ?Hs;
      rewrite !Hps by (first [by left | right; ids]); done.
Qed.

Lemma all_counted sts :
  (forall i s, sts !! i = Some s -> s = Counted) -> uncounted sts = 0.
Proof.
  induction sts as [|s sts IH]; intros H; [done|].
  change (s :: sts) with ([s] ++ sts). rewrite uncounted_app, IH.
  - by rewrite (H 0 s).
  - intros i s' Hi. by apply (H (S i)).
Qed.

Section CallFacts.
Variable c : Call.
Variables (sts : list Status) (qs : list (nat * (Val + Val))) (ph : Phase).
Variable w : World.
Hypothesis Inv : CallInv c [] sts qs ph w.






Lemma rest_queue : queue (runtime w) = [] -> qs = [] /\ tail_jobs c ph = [].
Proof.
  destruct Inv as [Hst Hlen Hbus Hq Hnd Hqd Hsts Hall Hpd Hinj Htr Hph].
  intros H0. rewrite H0 in Hq. symmetry in Hq. cbn in Hq.
  apply app_eq_nil in Hq as [Hq1 Hq2]. by apply map_eq_nil in Hq1.
Qed.


Lemma fulfilled_started :
  queue (runtime w) = [] -> all_fulfilled c w -> call_started c w.
Proof.
  intros [Hqs Htail]%rest_queue Hall'.
  destruct Inv as [Hstart Hlen Hbus Hq Hnd Hqd Hsts Hall Hpd Hinj Htr Hph].
  assert (Hc : forall i s, sts !! i = Some s -> s = Counted).
  { intros i s Hs. pose proof (lookup_lt_Some _ _ _ Hs) as Hi.
    rewrite Hlen in Hi. destruct (Hall' i Hi) as [v Hv].
    pose proof (Hsts i s Hs) as Hst.
    destruct s; cbn in Hst; try done.
    - destruct Hst as [Hst _]. congruence.
    - apply Hqd in Hs. rewrite Hqs in Hs. by apply elem_of_nil in Hs.
    - destruct Hst as [e He]. congruence. }
  pose proof (all_counted sts Hc) as Hun.
  destruct Htr as (new & Ht & Hev & Hm).
  destruct ph; cbn in Hph, Htail, Hev, Hm; try done.
  - destruct Hph as (? & ? & ? & ? & ? & ?). lia.
  - destruct Hph as (HpS & _ & Hact & ->).
    split_and!; [done|done|]. by exists new.
  - destruct Hph as (_ & _ & (j & Hj)%list_elem_of_lookup & _).
    by apply Hc in Hj.
Qed.

End CallFacts.
Lemma call_step_inv c w w' :
  CallState c w -> call_step c w w' -> CallState c w'.
Proof.
  intros (sts & qs & ph & Inv) Hstep. destruct Hstep as [w Hne|w j cb error H0 Hj Hown].
  - destruct qs as [|[i r] qs].
    + destruct (call_microtask_tail c sts ph w Inv Hne) as (ph' & Inv' & _).
      by exists sts, [], ph'.
    + destruct (call_microtask_elem c sts i r qs ph w Inv) as (sts' & ph' & Inv' & _).
      by exists sts', qs, ph'.
  - destruct (call_callback c sts qs ph w j cb error Inv H0 Hj Hown)
      as (sts' & qs' & Inv' & _).
    by exists sts', qs', ph.
Qed.

Lemma call_steps_inv c w w' :
  CallState c w -> rtc (call_step c) w w' -> CallState c w'.
Proof.
  intros Inv Hsteps. induction Hsteps as [|w w1 w2 Hstep _ IH]; [done|].
  apply IH. by eapply call_step_inv.
Qed.

(** The queue empties: every job of an element and every job of the chain
    runs, and none is added. *)
Lemma call_drains c fuel : forall sts qs ph w,
  CallInv c [] sts qs ph w ->
  length qs + potential ph <= fuel ->
  queue (runtime (drain fuel w)) = [] /\
  rtc (call_step c) w (drain fuel w).
Proof.
  induction fuel as [|fuel IH]; intros sts qs ph w Inv Hfuel.
  - destruct qs; cbn in Hfuel; [|lia].
    pose proof (inv_queue _ _ _ _ _ _ Inv) as Hq.
    destruct ph; cbn in Hfuel; try lia; cbn in Hq; by split.
  - destruct (queue (runtime w)) as [|j q] eqn:E.
    { rewrite drain_empty by done. by split. }
    rewrite (drain_step _ _ _ _ E).
    assert (Hne : queue (runtime w) <> []) by (by rewrite E).
    assert (Hstep : call_step c w (microtask w)) by (by constructor).
    destruct qs as [|[i r] qs].
    + destruct (call_microtask_tail c sts ph w Inv Hne) as (ph' & Inv' & Hpot).
      destruct (IH sts [] ph' (microtask w) Inv') as [H0 Hrtc]; [cbn in *; lia|].
      split; [done|]. by eapply rtc_l.
    + destruct (call_microtask_elem c sts i r qs ph w Inv) as (sts' & ph' & Inv' & Hpot).
      destruct (IH sts' qs ph' (microtask w) Inv') as [H0 Hrtc]; [cbn in *; lia|].
      split; [done|]. by eapply rtc_l.
Qed.
Lemma published_state w bus ses fn :
  accPack (vars w) = Some bus ->
  session (vars w) = Some ses ->
  streamContainers (vars w) = Some fn ->
  ableToJoin w = (Ok true, w) ->
  queue (runtime w) = [] ->
  callbacks_known w ->
  (startCall w).1 = Ok (next (runtime w)) /\
  CallState (started_call w) (published w).
Proof.
  intros Hbus Hses Hfn Hable Hq Hknown.
  assert (E0 : exists r w1, startCall w = (r, w1)) by (destruct (startCall w); eauto).
  destruct E0 as (r & w1 & E0).
  unfold published, exec. rewrite E0. cbn [fst snd].
  unfold startCall in E0. autounfold with comm in E0. cbn in E0.
  match type of E0 with context [ableToJoin ?x] =>
    replace (ableToJoin x) with (@Ok bool true, x) in E0 end.
  2:{ symmetry. apply ableToJoin_true. apply ableToJoin_true in Hable. done. }
  unfold started_call, callbacks_known in *.
  destruct w as [[se ap cp sp sc au cl ac] st tr hd [hp nx al qu pd]].
  proj_simpl. subst.
  unfold publish, createPublisher in E0. autounfold with comm in E0.
  run_in E0.
  injection E0 as <- <-.
  split; [done|].
  erewrite fire_last by (cbn; reflexivity).
  match goal with |- context [exec (run_callback ?a ?b) ?w] =>
    evaluate (exec (run_callback a b) w) by
      (fun E => unfold exec, run_callback, initPublisher_callback in E;
                autounfold with comm in E) end.
  match goal with |- context [microtask (microtask (microtask ?w))] =>
    evaluate (microtask w) by
      (fun E => unfold microtask, run_job in E; cbn in E;
                unfold publish_then in E;
                autounfold with comm in E) end.
  match goal with |- context [microtask (microtask ?W)] =>
    remember (microtask W) as w3 eqn:E3 end.
  unfold microtask, run_job in E3. cbn in E3.
  match type of E3 with context [startCall_then _ ?W] =>
    destruct (startCall_then_inv nx tr W) as (w' & sts & qs & E & Inv & Hframe) end.
  { cbn. by eexists. }
  { cbn. lia. }
  { cbn. by heap_simpl. }
  { unfold callbacks_known. cbn. eapply Forall_impl; [exact Hknown|].
    cbn. intros cb Hcb. lia. }
  { cbn. eexists [_; _; _; _]. split; [reflexivity|]. done. }
  rewrite E in E3.
  destruct w' as [v' st' tr' hd' [hp' nx' al' qu' pd']].
  cbn in Hframe, E3. autounfold with comm in E3. cbn in E3.
  rewrite Hframe in E3 by lia. run_in E3. subst w3.
  pose proof (inv_queue _ _ _ _ _ _ Inv) as Hqu. cbn in Hqu. subst qu'.
  match goal with |- context [microtask ?W] =>
    remember (microtask W) as w4 eqn:E4 end.
  unfold microtask, run_job in E4. cbn in E4.
  autounfold with comm in E4. cbn in E4.
  rewrite lookup_insert_ne, Hframe in E4 by lia. run_in E4. subst w4.
  exists sts, qs. eexists.
  eapply CallInv_frame; [exact Inv|done..| |].
  - cbn. rewrite !app_nil_r. reflexivity.
  - intros p [->|Hp]; cbn in *; rewrite !lookup_insert_ne by lia; done.
Qed.
(** * startCall waits for the initial subscriptions, and for all of them to succeed *)



(** * The theorems at work *)

Lemma startCall_connection_limit_witness :
  promise_state (exec startCall limited_world) (next (runtime limited_world)) =
    Some (Rejected limitError) /\
  store (exec startCall limited_world) = store limited_world.
Proof.
  destruct (startCall_connection_limit limited_world 5 1) as [H _].
  - reflexivity.
  - reflexivity.
  - lia.
  - destruct H as (_ & Hp & _ & Hs & _).
    + vm_compute. discriminate.
    + split; [exact Hp|exact Hs].
Defined.

Lemma subscribe_idempotent_witness :
  sdk_subscribe_calls
    (trace (exec (subscribe (camera_stream "a"))
              (fire 0 None
                 (exec (subscribe (camera_stream "a")) (initialised all_options)))))
  = 1.
Proof.
  destruct subscribe_idempotent as [_ H].
  destruct (H (initialised all_options) (camera_stream "a") 1 5 6)
    as (_ & _ & H3 & _);
    [reflexivity | reflexivity | reflexivity | intros text; discriminate
    | reflexivity | exact H3].
Defined.


Lemma publish_failure_witness :
  trace (drain 2 (fire 0 (Some network_error)
                    (exec publish (initialised all_options)))) =
  TriggerEvent "error" (VString "Check your network connection")
  :: Log la_startCall fail
  :: trace (exec publish (initialised all_options)).
Proof.
  destruct (publish_failure (initialised all_options) 5 6 network_error 2)
    as (_ & _ & _ & Ht & _).
  - reflexivity.
  - reflexivity.
  - reflexivity.
  - lia.
  - exact Ht.
Defined.

Lemma streamDestroyed_events_witness :
  streams (store (exec (onStreamDestroyed (screen_stream "s")) screen_world))
    !! "s" = None /\
  trace (exec (onStreamDestroyed (screen_stream "s")) screen_world) =
    [TriggerEvent "unsubscribeFromScreen"
       (VPubSub (pubSub_of
          (store (exec (onStreamDestroyed (screen_stream "s")) screen_world))));
     TriggerEvent "endViewingSharedScreen" VUndefined]
    ++ trace screen_world.
Proof.
  destruct (streamDestroyed_events screen_world 5 (screen_stream "s"))
    as (_ & _ & Hs & Ht).
  - reflexivity.
  - split; [exact Hs|exact Ht].
Defined.

Lemma init_fails_open_witness :
  (promise_state (exec (init options_without_session) loaded) 0 =
     Some (Fulfilled VUndefined) /\
   vars (exec (init options_without_session) loaded) =
     configured options_without_session false /\
   LogError "session is a required option."
     ∈ required_errors options_without_session) /\
  (exists msg,
     promise_state (exec (init options_without_accPack) loaded) 0 =
     Some (Rejected (TypeError msg))) /\
  vars (exec (init options_without_accPack) loaded) =
    configured options_without_accPack false.
Proof.
  split; [|split].
  - destruct (init_fails_open options_without_session loaded) as [H _].
    destruct (H 5) as (_ & Hp & Hv & _ & Hs & _); [reflexivity|].
    split; [exact Hp|]. split; [exact Hv|]. apply Hs. reflexivity.
  - destruct (init_fails_open options_without_accPack loaded) as [_ H].
    destruct H as (_ & Hp & _); [reflexivity|exact Hp].
  - destruct (init_fails_open options_without_accPack loaded) as [_ H].
    destruct H as (_ & _ & Hv & _); [reflexivity|exact Hv].
Defined.

Lemma startCall_publish_failure_hangs_witness :
  promise_state
    (drain 3 (fire 0 (Some network_error)
                (exec startCall (initialised all_options)))) 1
  = Some (Pending []).
Proof.
  destruct (startCall_publish_failure_hangs (initialised all_options) 5 6
              network_error 3
              (drain 3 (fire 0 (Some network_error)
                          (exec startCall (initialised all_options)))))
    as (_ & _ & _ & _ & _ & H).
  - reflexivity.
  - reflexivity.
  - vm_compute. reflexivity.
  - reflexivity.
  - unfold unreferenced.
    change (heap (runtime (initialised all_options)))
      with (<[0 := Fulfilled VUndefined]> (∅ : gmap nat PromiseState)).
    change (queue (runtime (initialised all_options))) with (@nil Job).
    change (pending (runtime (initialised all_options))) with (@nil Callback).
    split; [|split].
    + intros q s r Hq Hr.
      apply lookup_insert_Some in Hq as [[_ <-]|[_ Hq]].
      * by apply elem_of_nil in Hr.
      * by rewrite lookup_empty in Hq.
    + intros j Hj. by apply elem_of_nil in Hj.
    + intros cb Hcb. by apply elem_of_nil in Hcb.
  - lia.
  - apply rtc_refl.
  - exact H.
Defined.

Lemma zero_limit_is_no_limit_witness :
  connectionLimit (vars (exec (init (options_with_limit 0)) loaded)) = None /\
  ableToJoin (exec (init (options_with_limit 0)) loaded) =
    (Ok true, exec (init (options_with_limit 0)) loaded).
Proof.
  destruct (zero_limit_is_no_limit (options_with_limit 0) loaded
              (exec (init (options_with_limit 0)) loaded)) as (Hc & Ha & _).
  - left. reflexivity.
  - reflexivity.
  - split; [exact Hc|exact Ha].
Defined.
(** * More of communication.js *)

(** ** publish, when the SDK creates the publisher *)

(** When the SDK reports that the publisher was created, [publish]
    registers it as a camera publisher, hands it to [session.publish], logs
    the success and fulfils its promise; it emits no event, and needs no
    event bus. *)
Theorem publish_success w ses fn fuel :
  session (vars w) = Some ses ->
  streamContainers (vars w) = Some fn ->
  queue (runtime w) = [] ->
  2 <= fuel ->
  let pPublish := next (runtime w) in
  let publisher := {| publisher_id := handles w |} in
  let w1 := exec publish w in
  let w2 := drain fuel (fire (length (pending (runtime w))) None w1) in
  (publish w).1 = Ok pPublish /\
  trace w1 =
    OTInitPublisher {| container_fn := fn; container_for := "publisher";
                       container_type := camera; container_data := None |}
                    (callProperties (vars w)) publisher :: trace w /\
  promise_state w1 pPublish = Some (Pending []) /\
  promise_state w2 pPublish = Some (Fulfilled VUndefined) /\
  trace w2 = Log la_startCall success :: SessionPublish publisher :: trace w1 /\
  store w2 = store (exec (state.addPublisher camera publisher) w) /\
  queue (runtime w2) = [] /\
  pending (runtime w2) = pending (runtime w).
Proof.
  intros Hses Hfn Hq Hfuel.
  destruct fuel as [|[|fuel]]; [lia|lia|].
  destruct_world w. subst.
  unfold exec.
  match goal with |- context [publish ?w] =>
    evaluate (publish w) by
      (fun E => unfold publish, createPublisher in E; autounfold with comm in E) end.
  proj_simpl.
  split; [done|]. split; [done|].
  split; [unfold promise_state; proj_simpl; by heap_simpl|].
  erewrite fire_last by (cbn; reflexivity).
  match goal with |- context [exec (run_callback ?a ?b) ?w] =>
    evaluate (exec (run_callback a b) w) by
      (fun E => unfold exec, run_callback, initPublisher_callback in E;
                autounfold with comm in E) end.
  erewrite drain_step by (cbn; reflexivity).
  match goal with |- context [microtask ?w] =>
    evaluate (microtask w) by
      (fun E => unfold microtask, run_job in E; cbn in E;
                unfold publish_then in E;
                autounfold with comm in E) end.
  erewrite drain_step by (cbn; reflexivity).
  match goal with |- context [microtask ?w] =>
    evaluate (microtask w) by
      (fun E => unfold microtask, run_job in E; cbn in E;
                autounfold with comm in E) end.
  rewrite drain_empty by done. unfold promise_state.
  proj_simpl. heap_simpl.
  repeat split; try done.
Qed.

Lemma publish_success_witness :
  promise_state
    (drain 2 (fire 0 None (exec publish (initialised all_options)))) 1
  = Some (Fulfilled VUndefined).
Proof.
  destruct (publish_success (initialised all_options) 1 6 2)
    as (_ & _ & _ & H & _); [reflexivity | reflexivity | reflexivity | lia | exact H].
Defined.

(** ** subscribe, when the SDK answers *)

(** For a stream that is not subscribed, [subscribe] asks the SDK once, with
    the container [streamContainers] gives for a subscriber, the kind of
    the stream and what [JSON.parse] makes of its connection data (null
    when it has none; the parsed value is known by the text it is parsed
    from), and with the call properties for a camera stream, the screen
    properties for a screen stream; its promise is pending until the SDK
    answers. *)
Theorem subscribe_asks_sdk w ses fn stream :
  session (vars w) = Some ses ->
  streamContainers (vars w) = Some fn ->
  (forall text, connection_data stream <> BadData text) ->
  streamMap (store w) !! stream_id stream = None ->
  let p := next (runtime w) in
  let subscriber := {| subscriber_id := handles w; subscriber_stream := stream |} in
  let w1 := exec (subscribe stream) w in
  (subscribe stream w).1 = Ok p /\
  promise_state w1 p = Some (Pending []) /\
  trace w1 =
    SessionSubscribe stream
      {| container_fn := fn; container_for := "subscriber";
         container_type := videoType stream;
         container_data := match connection_data stream with
                           | JsonData text => Some text
                           | _ => None
                           end |}
      (match videoType stream with
       | camera => callProperties (vars w)
       | screen => screenProperties (vars w)
       end) subscriber
    :: Log la_subscribe attempt :: trace w /\
  pending (runtime w1) =
    pending (runtime w) ++ [CbSubscribe p (videoType stream) subscriber] /\
  store w1 = store w /\
  queue (runtime w1) = queue (runtime w).
Proof.
  intros Hses Hfn Hdata Hmap. cbn zeta. unfold exec.
  rewrite subscribe_eq. cbn [fst snd]. split; [done|].
  unfold after_subscribe, subscribe_outcome. rewrite Hmap, Hses, Hfn.
  destruct w as [v st tr hd [hp nx al qu pd]].
  destruct (connection_data stream) eqn:E; try (by edestruct Hdata);
    unfold promise_state; cbn; heap_simpl;
    (split; [done|]); (split; [|done]);
    by destruct (videoType stream).
Qed.

Lemma subscribe_asks_sdk_witness :
  trace (exec (subscribe data_stream) (initialised all_options)) =
  SessionSubscribe data_stream
    {| container_fn := 6; container_for := "subscriber";
       container_type := camera; container_data := Some "[1]" |}
    (Some defaultCallProperties)
    {| subscriber_id := 0; subscriber_stream := data_stream |}
  :: Log la_subscribe attempt :: trace (initialised all_options).
Proof.
  destruct (subscribe_asks_sdk (initialised all_options) 1 6 data_stream)
    as (_ & _ & H & _);
    [reflexivity | reflexivity | intros text; discriminate | reflexivity | exact H].
Defined.

(** When the SDK completes the subscription, [subscribe] registers the
    subscriber, emits ['subscribeToCamera'] or ['subscribeToScreen'] with
    the subscriber and the state, then for a screen stream the legacy
    ['startViewingSharedScreen'] with the subscriber, logs the success and
    fulfils its promise. *)
Theorem subscribe_success w ses bus fn stream :
  session (vars w) = Some ses ->
  accPack (vars w) = Some bus ->
  streamContainers (vars w) = Some fn ->
  (forall text, connection_data stream <> BadData text) ->
  streamMap (store w) !! stream_id stream = None ->
  let p := next (runtime w) in
  let subscriber := {| subscriber_id := handles w; subscriber_stream := stream |} in
  let w1 := exec (subscribe stream) w in
  let w2 := fire (length (pending (runtime w))) None w1 in
  promise_state w2 p = Some (Fulfilled VUndefined) /\
  trace w2 =
    Log la_subscribe success
    :: match videoType stream with
       | camera =>
           [TriggerEvent "subscribeToCamera" (VSubscribed subscriber (store w2))]
       | screen =>
           [TriggerEvent "startViewingSharedScreen" (VSubscriber subscriber);
            TriggerEvent "subscribeToScreen" (VSubscribed subscriber (store w2))]
       end ++ trace w1 /\
  store w2 = (exec (state.addSubscriber subscriber) w).(store) /\
  pending (runtime w2) = pending (runtime w) /\
  queue (runtime w2) = queue (runtime w).
Proof.
  intros Hses Hbus Hfn Hdata Hmap. cbn zeta. unfold exec.
  rewrite subscribe_eq. cbn [fst snd].
  unfold after_subscribe, subscribe_outcome. rewrite Hmap, Hses, Hfn.
  destruct w as [[ses' ap cp sp sc au cl ac] st tr hd [hp nx al qu pd]].
  cbn in Hses, Hbus, Hfn, Hmap. subst.
  destruct (connection_data stream) eqn:E; try (by edestruct Hdata);
    cbn;
    (erewrite fire_last by (cbn; reflexivity));
    destruct (videoType stream) eqn:Et;
    match goal with |- context [exec (run_callback ?a ?b) ?w] =>
      evaluate (exec (run_callback a b) w) by
        (fun E => unfold exec, run_callback, subscribe_callback in E;
                  autounfold with comm in E) end;
    unfold promise_state; cbn; heap_simpl; rewrite ?app_nil_r, ?Et;
    repeat split; reflexivity.
Qed.

Lemma subscribe_success_witness :
  promise_state
    (fire 0 None (exec (subscribe (screen_stream "s")) (initialised all_options))) 1
  = Some (Fulfilled VUndefined).
Proof.
  destruct (subscribe_success (initialised all_options) 1 5 6 (screen_stream "s"))
    as (H & _);
    [reflexivity | reflexivity | reflexivity | intros text; discriminate
    | reflexivity | exact H].
Defined.

(** When the SDK fails the subscription, [subscribe] logs the failure and
    rejects its promise with the error of the SDK; it emits no event and
    registers nothing, so the stream is still not subscribed. *)
Theorem subscribe_failure w ses fn stream e :
  session (vars w) = Some ses ->
  streamContainers (vars w) = Some fn ->
  (forall text, connection_data stream <> BadData text) ->
  streamMap (store w) !! stream_id stream = None ->
  let p := next (runtime w) in
  let w1 := exec (subscribe stream) w in
  let w2 := fire (length (pending (runtime w))) (Some e) w1 in
  promise_state w2 p = Some (Rejected (VError e)) /\
  trace w2 = Log la_subscribe fail :: trace w1 /\
  store w2 = store w /\
  pending (runtime w2) = pending (runtime w) /\
  queue (runtime w2) = queue (runtime w).
Proof.
  intros Hses Hfn Hdata Hmap. cbn zeta. unfold exec.
  rewrite subscribe_eq. cbn [fst snd].
  unfold after_subscribe, subscribe_outcome. rewrite Hmap, Hses, Hfn.
  destruct w as [[ses' ap cp sp sc au cl ac] st tr hd [hp nx al qu pd]].
  cbn in Hses, Hfn, Hmap. subst.
  destruct (connection_data stream) eqn:E; try (by edestruct Hdata);
    cbn;
    (erewrite fire_last by (cbn; reflexivity));
    match goal with |- context [exec (run_callback ?a ?b) ?w] =>
      evaluate (exec (run_callback a b) w) by
        (fun E => unfold exec, run_callback, subscribe_callback in E;
                  autounfold with comm in E) end;
    unfold promise_state; cbn; heap_simpl; rewrite ?app_nil_r; done.
Qed.

Lemma subscribe_failure_witness :
  promise_state
    (fire 0 (Some subscription_error)
       (exec (subscribe (camera_stream "a")) (initialised all_options))) 1
  = Some (Rejected (VError subscription_error)).
Proof.
  destruct (subscribe_failure (initialised all_options) 1 6 (camera_stream "a")
              subscription_error) as (H & _);
    [reflexivity | reflexivity | intros text; discriminate | reflexivity | exact H].
Defined.

(** The stream map is written when the SDK answers, not when [subscribe]
    is called: a second [subscribe] to the same stream before the answer
    asks the SDK again, and the SDK then holds two callbacks. *)
Theorem subscribe_again_before_answer w ses fn stream :
  session (vars w) = Some ses ->
  streamContainers (vars w) = Some fn ->
  (forall text, connection_data stream <> BadData text) ->
  streamMap (store w) !! stream_id stream = None ->
  let w1 := exec (subscribe stream) w in
  let w2 := exec (subscribe stream) w1 in
  sdk_subscribe_calls (trace w2) = 2 + sdk_subscribe_calls (trace w) /\
  length (pending (runtime w2)) = 2 + length (pending (runtime w)) /\
  promise_state w2 (next (runtime w)) = Some (Pending []) /\
  promise_state w2 (S (next (runtime w))) = Some (Pending []).
Proof.
  intros Hses Hfn Hdata Hmap. cbn zeta. unfold exec.
  rewrite !subscribe_eq. cbn [fst snd].
  unfold after_subscribe at 2. unfold subscribe_outcome.
  rewrite Hmap, Hses, Hfn.
  destruct w as [[ses' ap cp sp sc au cl ac] st tr hd [hp nx al qu pd]].
  cbn in Hses, Hfn, Hmap. subst.
  destruct (connection_data stream) eqn:E; try (by edestruct Hdata);
    unfold after_subscribe, subscribe_outcome;
    repeat (progress (cbn; rewrite ?Hmap, ?E));
    unfold promise_state, sdk_subscribe_calls; cbn; heap_simpl;
    rewrite !length_app; cbn; repeat split; lia.
Qed.

Lemma subscribe_again_before_answer_witness :
  sdk_subscribe_calls
    (trace (exec (subscribe (camera_stream "a"))
              (exec (subscribe (camera_stream "a")) (initialised all_options))))
  = 2.
Proof.
  destruct (subscribe_again_before_answer (initialised all_options) 1 6
              (camera_stream "a")) as (H & _);
    [reflexivity | reflexivity | intros text; discriminate | reflexivity | exact H].
Defined.

(** When the connection data of the stream is not JSON, [JSON.parse]
    throws in the executor: [subscribe] logs the attempt, rejects its
    promise and does not ask the SDK. *)
Theorem subscribe_malformed_connection_data w stream text :
  connection_data stream = BadData text ->
  streamMap (store w) !! stream_id stream = None ->
  let p := next (runtime w) in
  let w1 := exec (subscribe stream) w in
  (subscribe stream w).1 = Ok p /\
  (exists e, promise_state w1 p = Some (Rejected e)) /\
  trace w1 = Log la_subscribe attempt :: trace w /\
  pending (runtime w1) = pending (runtime w) /\
  store w1 = store w.
Proof.
  intros Hdata Hmap. cbn zeta. unfold exec.
  rewrite subscribe_eq. cbn [fst snd]. split; [done|].
  unfold after_subscribe, subscribe_outcome. rewrite Hmap, Hdata.
  destruct w as [v st tr hd [hp nx al qu pd]].
  unfold promise_state. cbn. heap_simpl. split; [by eexists|done].
Qed.

Lemma subscribe_malformed_connection_data_witness :
  pending (runtime (exec (subscribe malformed_stream) (initialised all_options)))
  = [].
Proof.
  destruct (subscribe_malformed_connection_data (initialised all_options)
              malformed_stream "{") as (_ & _ & _ & H & _);
    [reflexivity | reflexivity | exact H].
Defined.

(** ** unsubscribe *)

(** In a module that has its session, [unsubscribe] logs the attempt, calls
    [session.unsubscribe] on the subscriber, removes it from the state, logs
    the success and fulfils its promise, whether or not the subscriber was
    registered; it emits no event. *)
Theorem unsubscribe_resolves w ses subscriber :
  session (vars w) = Some ses ->
  let p := next (runtime w) in
  let w' := exec (unsubscribe subscriber) w in
  (unsubscribe subscriber w).1 = Ok p /\
  promise_state w' p = Some (Fulfilled VUndefined) /\
  trace w' = Log la_unsubscribe success
             :: SessionUnsubscribe subscriber
             :: Log la_unsubscribe attempt :: trace w /\
  store w' = store (exec (state.removeSubscriber subscriber) w) /\
  vars w' = vars w /\
  pending (runtime w') = pending (runtime w) /\
  queue (runtime w') = queue (runtime w).
Proof.
  intros Hses. cbn zeta. unfold exec.
  destruct w as [[ses' ap cp sp sc au cl ac] st tr hd [hp nx al qu pd]].
  cbn in Hses. subst.
  match goal with |- context [unsubscribe ?s ?w] =>
    evaluate (unsubscribe s w) by
      (fun E => unfold unsubscribe in E; autounfold with comm in E) end.
  unfold promise_state. cbn. heap_simpl. rewrite app_nil_r.
  repeat split; reflexivity.
Qed.

Lemma unsubscribe_resolves_witness :
  promise_state
    (exec (unsubscribe {| subscriber_id := 7;
                          subscriber_stream := camera_stream "a" |})
          (initialised all_options)) 1
  = Some (Fulfilled VUndefined).
Proof.
  destruct (unsubscribe_resolves (initialised all_options) 1
              {| subscriber_id := 7; subscriber_stream := camera_stream "a" |})
    as (_ & H & _); [reflexivity | exact H].
Defined.

(** Before [init] has set the session, [unsubscribe] does not resolve:
    [session.unsubscribe] throws in the executor, the promise is rejected
    and the subscriber stays in the state. *)
Theorem unsubscribe_without_session w subscriber :
  session (vars w) = None ->
  let p := next (runtime w) in
  let w' := exec (unsubscribe subscriber) w in
  (unsubscribe subscriber w).1 = Ok p /\
  (exists e, promise_state w' p = Some (Rejected e)) /\
  trace w' = Log la_unsubscribe attempt :: trace w /\
  store w' = store w.
Proof.
  intros Hses. cbn zeta. unfold exec.
  destruct w as [[ses' ap cp sp sc au cl ac] st tr hd [hp nx al qu pd]].
  cbn in Hses. subst.
  match goal with |- context [unsubscribe ?s ?w] =>
    evaluate (unsubscribe s w) by
      (fun E => unfold unsubscribe in E; autounfold with comm in E) end.
  unfold promise_state. cbn. heap_simpl. split; [done|]. split; [by eexists|done].
Qed.

Lemma unsubscribe_without_session_witness :
  store (exec (unsubscribe {| subscriber_id := 7;
                              subscriber_stream := camera_stream "a" |}) loaded)
  = store loaded.
Proof.
  destruct (unsubscribe_without_session loaded
              {| subscriber_id := 7; subscriber_stream := camera_stream "a" |})
    as (_ & _ & _ & H); [reflexivity | exact H].
Defined.

(** ** The connection limit counts camera streams *)

Lemma filter_length_perm {A} (f : A -> bool) (l l' : list A) :
  l ≡ₚ l' -> length (List.filter f l) = length (List.filter f l').
Proof.
  induction 1 as [|x l l' _ IH|x y l|l l' l'' _ IH1 _ IH2]; cbn.
  - done.
  - destruct (f x); cbn; by rewrite IH.
  - by destruct (f x), (f y).
  - by rewrite IH1.
Qed.

Lemma cameraStreams_with_stream s w :
  streams (store w) !! stream_id s = None ->
  length (cameraStreams (with_stream s w)) =
  (if bool_decide (videoType s = camera) then 1 else 0)
  + length (cameraStreams w).
Proof.
  intros Hfresh. unfold cameraStreams, with_stream, Object_values.
  destruct w as [v st tr hd rt]. cbn in *.
  rewrite (filter_length_perm _ _ (s :: (map_to_list (streams st)).*2)).
  - cbn. by destruct (bool_decide (videoType s = camera)).
  - by rewrite map_to_list_insert.
Qed.

(** A screen stream does not count against the connection limit: with one
    more screen stream in the registry, [ableToJoin] answers as before. *)
Theorem ableToJoin_ignores_screen_streams w s :
  videoType s = screen ->
  streams (store w) !! stream_id s = None ->
  (ableToJoin (with_stream s w)).1 = (ableToJoin w).1.
Proof.
  intros Hscreen Hfresh.
  pose proof (cameraStreams_with_stream s w Hfresh) as Hlen.
  rewrite Hscreen in Hlen. cbn in Hlen.
  destruct (connectionLimit (vars w)) as [[|N|N]|] eqn:Hlim.
  1,4: rewrite (proj2 (ableToJoin_true w)), (proj2 (ableToJoin_true (with_stream s w)));
    [done| |]; cbn; by rewrite ?Hlim.
  - destruct (decide (Z.of_nat (length (cameraStreams w)) < Z.pos N)%Z).
    + rewrite (proj2 (ableToJoin_true w)), (proj2 (ableToJoin_true (with_stream s w)));
        [done| |]; cbn; rewrite ?Hlim, ?Hlen; done.
    + rewrite (ableToJoin_false w (Z.pos N)), (ableToJoin_false (with_stream s w) (Z.pos N));
        try done; rewrite ?Hlen; lia.
  - rewrite (ableToJoin_false w (Z.neg N)), (ableToJoin_false (with_stream s w) (Z.neg N));
      try done; lia.
Qed.

Lemma ableToJoin_ignores_screen_streams_witness :
  (ableToJoin (with_stream (screen_stream "s") limited_world)).1 =
  (ableToJoin limited_world).1.
Proof.
  apply (ableToJoin_ignores_screen_streams limited_world (screen_stream "s"));
    reflexivity.
Defined.

(** A negative connection limit lets nobody join: whatever the stream
    registry holds, [startCall] rejects with the connection-limit error and
    creates no publisher. *)
Theorem negative_limit_blocks w bus N :
  accPack (vars w) = Some bus ->
  connectionLimit (vars w) = Some N -> (N < 0)%Z ->
  let p := next (runtime w) in
  let w' := exec startCall w in
  (startCall w).1 = Ok p /\
  promise_state w' p = Some (Rejected limitError) /\
  trace w' = Log la_startCall fail
             :: TriggerEvent "error" (VString limitMessage)
             :: Log la_startCall attempt :: trace w /\
  pending (runtime w') = pending (runtime w).
Proof.
  intros Hbus HN Hneg. cbn zeta.
  unfold startCall. autounfold with comm. cbn.
  destruct w as [[ses ap cp sp sc au cl ac] st tr hd [hp nx al qu pd]].
  cbn in Hbus, HN. subst.
  match goal with |- context [ableToJoin ?x] =>
    replace (ableToJoin x) with (@Ok bool false, x) end.
  2:{ symmetry. apply ableToJoin_false with (N := N); cbn; auto; lia. }
  cbn. rewrite lookup_insert_eq. cbn.
  repeat split; try done.
  by rewrite lookup_insert_eq.
Qed.

Lemma negative_limit_blocks_witness :
  promise_state (exec startCall (initialised (options_with_limit (-1)))) 1 =
  Some (Rejected limitError).
Proof.
  destruct (negative_limit_blocks (initialised (options_with_limit (-1))) 5 (-1))
    as (_ & H & _); [reflexivity | reflexivity | lia | exact H].
Defined.

(** ** startCall *)

(** [startCall] does not look at the active flag: called while a call is
    active, it passes the limit check as before, asks the SDK for another
    publisher and returns a pending promise. *)
Theorem startCall_while_active w fn :
  active (vars w) = true ->
  streamContainers (vars w) = Some fn ->
  ableToJoin w = (Ok true, w) ->
  let p := next (runtime w) in
  let publisher := {| publisher_id := handles w |} in
  let w' := exec startCall w in
  (startCall w).1 = Ok p /\
  promise_state w' p = Some (Pending []) /\
  trace w' =
    OTInitPublisher {| container_fn := fn; container_for := "publisher";
                       container_type := camera; container_data := None |}
                    (callProperties (vars w)) publisher
    :: Log la_startCall attempt :: trace w /\
  pending (runtime w') =
    pending (runtime w) ++ [CbInitPublisher (S (S p)) publisher] /\
  active (vars w') = true.
Proof.
  intros Hact Hfn Hable. cbn zeta.
  assert (E0 : exists r w1, startCall w = (r, w1)) by (destruct (startCall w); eauto).
  destruct E0 as (r & w1 & E0).
  unfold exec. rewrite E0. cbn [fst snd].
  unfold startCall in E0. autounfold with comm in E0. cbn in E0.
  match type of E0 with context [ableToJoin ?x] =>
    replace (ableToJoin x) with (@Ok bool true, x) in E0 end.
  2:{ symmetry. apply ableToJoin_true. apply ableToJoin_true in Hable. done. }
  destruct w as [[ses ap cp sp sc au cl ac] st tr hd [hp nx al qu pd]].
  cbn in Hact, Hfn. subst.
  unfold publish, createPublisher in E0. autounfold with comm in E0.
  run_in E0. injection E0 as <- <-.
  unfold promise_state. cbn. heap_simpl. done.
Qed.

Lemma startCall_while_active_witness :
  length (pending (runtime (exec startCall active_world))) = 1.
Proof.
  destruct (startCall_while_active active_world 6) as (_ & _ & _ & H & _);
    [reflexivity | reflexivity | vm_compute; reflexivity |].
  rewrite H. reflexivity.
Defined.

(** With no remote stream known, [startCall] completes as soon as the
    publisher is published: two more jobs, and the ['startCall'] event has
    been emitted, the promise is fulfilled with the state of the publishers
    and subscribers and the flag is set. *)
Theorem startCall_without_streams w bus ses fn fuel :
  accPack (vars w) = Some bus ->
  session (vars w) = Some ses ->
  streamContainers (vars w) = Some fn ->
  ableToJoin w = (Ok true, w) ->
  queue (runtime w) = [] ->
  callbacks_known w ->
  streams (store w) = ∅ ->
  2 <= fuel ->
  queue (runtime (drain fuel (published w))) = [] /\
  call_started (started_call w) (drain fuel (published w)).
Proof.
  intros Hbus Hses Hfn Hable Hq Hknown Hnone Hfuel.
  destruct (published_state w bus ses fn Hbus Hses Hfn Hable Hq Hknown)
    as [_ (sts & qs & ph & Inv)].
  assert (Hcount : c_count (started_call w) = 0).
  { cbn. by rewrite Hnone, map_to_list_empty. }
  assert (Hqs : qs = []).
  { destruct qs as [|[i r] qs]; [done|].
    assert (Hi : sts !! i = Some Queued)
      by (apply (inv_queued _ _ _ _ _ _ Inv); cbn; by left).
    apply lookup_lt_Some in Hi.
    rewrite (inv_len _ _ _ _ _ _ Inv), Hcount in Hi. lia. }
  subst qs.
  destruct (call_drains _ fuel sts [] ph _ Inv) as [Hempty Hsteps].
  { cbn. destruct ph; cbn; lia. }
  split; [done|].
  assert (Hstate : CallState (started_call w) (published w))
    by (by exists sts, [], ph).
  destruct (call_steps_inv _ _ _ Hstate Hsteps) as (sts' & qs' & ph' & Inv').
  eapply fulfilled_started; [exact Inv'|done|].
  intros i Hi. rewrite Hcount in Hi. lia.
Qed.

Lemma startCall_without_streams_witness :
  queue (runtime (drain 2 (published quiet_world))) = [] /\
  call_started (started_call quiet_world) (drain 2 (published quiet_world)).
Proof.
  apply (startCall_without_streams quiet_world 5 1 6 2);
    [reflexivity | reflexivity | reflexivity | vm_compute; reflexivity
    | reflexivity | constructor | reflexivity | lia].
Defined.

(** A stream created while [startCall] is still pending is not subscribed:
    the flag is set only when the call has started, so until then the
    listener of [streamCreated] does nothing. *)
Theorem streamCreated_during_startCall w bus ses fn w' stream :
  accPack (vars w) = Some bus ->
  session (vars w) = Some ses ->
  streamContainers (vars w) = Some fn ->
  ableToJoin w = (Ok true, w) ->
  queue (runtime w) = [] ->
  callbacks_known w ->
  active (vars w) = false ->
  rtc (call_step (started_call w)) (published w) w' ->
  promise_state w' (next (runtime w)) = Some (Pending []) ->
  onStreamCreated stream w' = (Ok tt, w').
Proof.
  intros Hbus Hses Hfn Hable Hq Hknown Hact Hsteps Hpending.
  destruct (published_state w bus ses fn Hbus Hses Hfn Hable Hq Hknown)
    as [_ Hstate].
  destruct (call_steps_inv _ _ _ Hstate Hsteps) as (sts & qs & ph & Inv).
  assert (Hact' : active (vars w') = false).
  { pose proof (inv_phase _ _ _ _ _ _ Inv) as Hph.
    unfold started_call in Hph.
    unfold promise_state in Hpending.
    destruct ph; cbn in Hph;
      repeat match goal with H : _ /\ _ |- _ => destruct H end; congruence. }
  unfold onStreamCreated. cbn. by rewrite Hact'.
Qed.

Lemma streamCreated_during_startCall_witness :
  onStreamCreated (camera_stream "b") (published call_example) =
  (Ok tt, published call_example).
Proof.
  apply (streamCreated_during_startCall call_example 5 1 6);
    [reflexivity | reflexivity | reflexivity | vm_compute; reflexivity
    | reflexivity | constructor | reflexivity | apply rtc_refl
    | vm_compute; reflexivity].
Defined.

(** ** endCall *)

(** What [endCall] makes of the world of a module that has its session. *)
Lemma endCall_world w ses :
  session (vars w) = Some ses ->
  active (vars (exec endCall w)) = false /\
  (endCall w).1 = Ok tt.
Proof.
  intros Hs. unfold endCall. autounfold with comm. cbn.
  rewrite (forEach_unpublish _ _ ses) by done. cbn -[reverse].
  rewrite (forEach_unpublish _ _ ses) by done. cbn -[reverse].
  done.
Qed.

(** After [endCall] a stream that is created is no longer subscribed,
    whatever the auto-subscribe flag says. *)
Theorem endCall_stops_subscribing w ses stream :
  session (vars w) = Some ses ->
  onStreamCreated stream (exec endCall w) = (Ok tt, exec endCall w).
Proof.
  intros Hs. destruct (endCall_world w ses Hs) as (Hact & _).
  unfold onStreamCreated. cbn -[endCall]. unfold exec in Hact. by rewrite Hact.
Qed.

Lemma endCall_stops_subscribing_witness :
  onStreamCreated (camera_stream "b") (exec endCall succeeding_call) =
  (Ok tt, exec endCall succeeding_call).
Proof.
  apply (endCall_stops_subscribing succeeding_call 1). reflexivity.
Defined.

(** Without a session, [endCall] throws at the first publisher it finds:
    the attempt is logged, nothing is unpublished, the registries are not
    cleared and the flag is not reset. *)
Theorem endCall_without_session w id p :
  session (vars w) = None ->
  reg_camera (publishers (store w)) !! id = Some p ->
  exists e,
    endCall w = (Throw e, upd_trace (cons (Log la_endCall attempt)) w).
Proof.
  intros Hs Hp.
  assert (Hin : p ∈ Object_values (reg_camera (publishers (store w)))).
  { unfold Object_values. apply list_elem_of_fmap. exists (id, p).
    split; [done|]. by apply elem_of_map_to_list. }
  destruct w as [[ses ap cp sp sc au cl ac] st tr hd rt]. cbn in Hs, Hin. subst.
  unfold endCall. autounfold with comm. cbn.
  destruct (Object_values (reg_camera (publishers st))) as [|q l];
    [by apply elem_of_nil in Hin|].
  cbn. by eexists.
Qed.

Lemma endCall_without_session_witness :
  exists e,
    endCall (upd_vars (fun _ => no_vars) succeeding_call) =
    (Throw e, upd_trace (cons (Log la_endCall attempt))
                (upd_vars (fun _ => no_vars) succeeding_call)).
Proof.
  apply (endCall_without_session (upd_vars (fun _ => no_vars) succeeding_call)
           0 {| publisher_id := 0 |}); reflexivity.
Defined.

(** ** init *)

(** [init] looks at the options [publishers], [subscribers] and [streams]
    only to see that they are there: their values are never stored or
    used, so options that differ in these values alone give the same
    module. *)
Theorem init_ignores_registry_options options options' w :
  o_session options' = o_session options ->
  o_accPack options' = o_accPack options ->
  o_streamContainers options' = o_streamContainers options ->
  o_callProperties options' = o_callProperties options ->
  o_screenProperties options' = o_screenProperties options ->
  o_connectionLimit options' = o_connectionLimit options ->
  o_autoSubscribe options' = o_autoSubscribe options ->
  present (o_publishers options') = present (o_publishers options) ->
  present (o_subscribers options') = present (o_subscribers options) ->
  present (o_streams options') = present (o_streams options) ->
  init options' w = init options w.
Proof.
  intros H1 H2 H3 H4 H5 H6 H7 H8 H9 H10.
  unfold init. autounfold with comm. cbn.
  rewrite !validateOptions_eq.
  unfold required_errors, configured. rewrite H1, H2, H3, H4, H5, H6, H7, H8, H9, H10.
  reflexivity.
Qed.

Lemma init_ignores_registry_options_witness :
  init other_registries loaded = init all_options loaded.
Proof.
  apply (init_ignores_registry_options all_options other_registries loaded);
    reflexivity.
Defined.

(** [init] has no guard against a second call: each call with an event bus
    registers the two listeners again, and leaves the active flag and the
    store as they are. *)
Theorem init_registers_again options w bus :
  o_accPack options = Some bus ->
  let w' := exec (init options) w in
  listener_registrations (trace w') = 2 + listener_registrations (trace w) /\
  active (vars w') = active (vars w) /\
  store w' = store w.
Proof.
  intros Hbus. cbn zeta.
  destruct w as [v st tr hd [hp nx al qu pd]].
  match goal with |- context [exec (init ?o) ?w] =>
    evaluate (exec (init o) w) by
      (fun E => unfold exec, init, createEventListeners in E;
                autounfold with comm in E; cbn in E;
                rewrite validateOptions_eq in E; run_in E;
                unfold configured at 1 in E; rewrite Hbus in E) end.
  cbn. split; [|done].
  unfold listener_registrations, required_errors, required_error. cbn.
  rewrite !List.filter_app, Hbus.
  by destruct (o_session options), (o_publishers options), (o_subscribers options),
    (o_streams options).
Qed.

Lemma init_registers_again_witness :
  listener_registrations
    (trace (exec (init all_options) (exec (init all_options) loaded))) = 4.
Proof.
  destruct (init_registers_again all_options (exec (init all_options) loaded) 5)
    as [H _]; [reflexivity|]. rewrite H. reflexivity.
Defined.

(** Without [callProperties] and [screenProperties] in the options, a
    camera stream is subscribed with the default properties and a screen
    stream with the default properties for a window. *)
Theorem init_default_properties options w ses fn stream :
  o_session options = Some ses ->
  o_streamContainers options = Some fn ->
  o_callProperties options = None ->
  o_screenProperties options = None ->
  (forall text, connection_data stream <> BadData text) ->
  streamMap (store w) !! stream_id stream = None ->
  let w1 := exec (init options) w in
  exists c subscriber,
    trace (exec (subscribe stream) w1) =
      SessionSubscribe stream c
        (Some match videoType stream with
              | camera => defaultCallProperties
              | screen => defaultWindowProperties
              end) subscriber
      :: Log la_subscribe attempt :: trace w1.
Proof.
  intros Hses Hfn Hcp Hsp Hdata Hmap. cbn zeta. unfold exec at 1.
  rewrite subscribe_eq. cbn [fst snd].
  assert (Hv : vars (exec (init options) w) = configured options (active (vars w)))
    by apply init_vars.
  assert (Hst : store (exec (init options) w) = store w).
  { unfold init, createEventListeners. autounfold with comm. cbn.
    rewrite validateOptions_eq. destruct w as [v st tr hd [hp nx al qu pd]].
    run. unfold configured at 1.
    destruct (o_accPack options); run; done. }
  unfold after_subscribe, subscribe_outcome. rewrite Hst, Hmap, Hv.
  unfold configured. cbn -[exec init]. rewrite Hses, Hfn, Hcp, Hsp.
  destruct (exec (init options) w) as [v st tr hd [hp nx al qu pd]].
  destruct (connection_data stream) eqn:E; try (by edestruct Hdata);
    cbn; destruct (videoType stream) eqn:Et; cbn; eexists _, _; reflexivity.
Qed.

Lemma init_default_properties_witness :
  exists c subscriber,
    trace (exec (subscribe (screen_stream "s")) (exec (init all_options) loaded)) =
      SessionSubscribe (screen_stream "s") c (Some defaultWindowProperties) subscriber
      :: Log la_subscribe attempt :: trace (exec (init all_options) loaded).
Proof.
  apply (init_default_properties all_options loaded 1 6 (screen_stream "s"));
    [reflexivity | reflexivity | reflexivity | reflexivity
    | intros text; discriminate | reflexivity].
Defined.
